(** * pid_demo: the PID response simulation of [pid_demo.py]

    The Python program keeps one long-lived object, [PIDResponseGraph],
    whose method [simulate_pid_response] integrates a mass-spring-damper
    plant driven by a PID controller with explicit Euler steps, and whose
    callbacks [_on_time_change], [_toggle_play] and [_animate] scrub and
    play back the recorded trace.

    Python floats are IEEE 754 binary64 numbers.  They are modelled by the
    Standard Library's executable specification of binary floating point
    ([SpecFloat]) at precision 53 and maximal exponent 1024, so every
    operation below rounds exactly as the interpreter does. *)

From Stdlib Require Import String ZArith List Bool Lia.
From Stdlib Require Import SpecFloat.
Import ListNotations.

Local Open Scope Z_scope.

(** ** Binary64 arithmetic *)

Module F64.

Definition prec : Z := 53.
Definition emax : Z := 1024.

Definition float : Type := spec_float.

Definition add : float -> float -> float := SFadd prec emax.
Definition sub : float -> float -> float := SFsub prec emax.
Definition mul : float -> float -> float := SFmul prec emax.
Definition div : float -> float -> float := SFdiv prec emax.
Definition opp : float -> float := SFopp.

(** Comparisons of Python floats: every comparison with a NaN is false. *)
Definition eqb : float -> float -> bool := SFeqb.
Definition ltb : float -> float -> bool := SFltb.
Definition leb : float -> float -> bool := SFleb.

(** Conversion of a Python [int] to a float (round to nearest even). *)
Definition of_Z (z : Z) : float := binary_normalize prec emax z 0 false.

(** A well-formed binary64 datum: canonical mantissa, exponent in range. *)
Definition valid (a : float) : bool := valid_binary prec emax a.

Definition is_finite (a : float) : bool :=
  match a with
  | S754_zero _ | S754_finite _ _ _ => true
  | S754_infinity _ | S754_nan => false
  end.

Definition is_zero (a : float) : bool :=
  match a with
  | S754_zero _ => true
  | _ => false
  end.

(** The sign bit, as C's [signbit] reads it. *)
Definition signbit (a : float) : bool :=
  match a with
  | S754_zero s | S754_infinity s | S754_finite s _ _ => s
  | S754_nan => false
  end.

(** The signed integer mantissa of a finite float: its value is
    [signed_mantissa a * 2 ^ exponent a]. *)
Definition signed_mantissa (a : float) : Z :=
  match a with
  | S754_finite s m _ => cond_Zopp s (Zpos m)
  | _ => 0
  end.

Definition exponent (a : float) : Z :=
  match a with
  | S754_finite _ _ e => e
  | _ => 0
  end.

(** Integer roundings of a finite float, exact on [Z]. *)
Definition Zfloor (a : float) : Z :=
  match exponent a with
  | Zneg p => signed_mantissa a / 2 ^ Zpos p
  | e => signed_mantissa a * 2 ^ e
  end.

Definition Zceil (a : float) : Z :=
  match exponent a with
  | Zneg p => - ((- signed_mantissa a) / 2 ^ Zpos p)
  | e => signed_mantissa a * 2 ^ e
  end.

Definition Ztrunc (a : float) : Z :=
  match exponent a with
  | Zneg p => Z.quot (signed_mantissa a) (2 ^ Zpos p)
  | e => signed_mantissa a * 2 ^ e
  end.

(** The literals of the program. *)
Definition zero : float := S754_zero false.
Definition one : float := S754_finite false 4503599627370496 (-52).
Definition tenth : float := S754_finite false 7205759403792794 (-56).
Definition hundredth : float := S754_finite false 5764607523034235 (-59).
Definition two : float := S754_finite false 4503599627370496 (-51).
Definition four : float := S754_finite false 4503599627370496 (-50).
Definition ten : float := S754_finite false 5629499534213120 (-49).

End F64.

Abbreviation float := F64.float.

Declare Scope f64_scope.
Delimit Scope f64_scope with f64.
Bind Scope f64_scope with F64.float.
Infix "+" := F64.add : f64_scope.
Infix "-" := F64.sub : f64_scope.
Infix "*" := F64.mul : f64_scope.
Infix "/" := F64.div : f64_scope.
Notation "- a" := (F64.opp a) : f64_scope.
Infix "==" := F64.eqb (at level 70, no associativity) : f64_scope.

(** ** Python exceptions and results *)

Inductive exn : Set :=
| ZeroDivisionError
| ValueError
| OverflowError
| IndexError
| MemoryError.

Inductive result (A : Type) : Type :=
| Ok (a : A)
| Raise (e : exn).

Arguments Ok {A} a.
Arguments Raise {A} e.

Definition bind {A B : Type} (r : result A) (k : A -> result B) : result B :=
  match r with
  | Ok a => k a
  | Raise e => Raise e
  end.

Notation "x <- r ;; k" := (bind r (fun x => k))
  (at level 61, r at next level, right associativity).

(** ** The part of NumPy the program calls *)

Module np.

Definition intp_min : Z := - 2 ^ 63.
Definition intp_max : Z := 2 ^ 63 - 1.

(** The C cast [(npy_intp)ivalue] of a double that holds an integer
    between -2^63 and 2^63.  The largest index, 2^63 - 1, is not a
    double, so 2^63 itself reaches the cast; it does not fit, and the
    conversion instruction of x86-64 then yields the smallest index. *)
Definition to_intp (n : Z) : Z :=
  if n <=? intp_max then n else intp_min.

(** Rounding the length quotient up to an index.  NaN cannot be
    converted.  The range test is made in double precision, against
    [(double)NPY_MIN_INTP] = -2^63 and [(double)NPY_MAX_INTP] = 2^63;
    a ceiling outside it overflows. *)
Definition _arange_safe_ceil_to_intp (value : float) : result Z :=
  match value with
  | S754_nan => Raise ValueError
  | S754_infinity _ => Raise OverflowError
  | _ =>
      let n := F64.Zceil value in
      if (intp_min <=? n) && (n <=? intp_max + 1) then Ok (to_intp n)
      else Raise OverflowError
  end.

(** [len(arange(start, stop, step))]: [ceil((stop - start) / step)],
    the quotient being a true division of Python floats, which raises on
    a zero divisor.  When the quotient is zero although [stop - start] is
    not (the division underflowed, or the step is infinite), the length
    is 1, or 0 if the quotient is a negative zero. *)
Definition _calc_length (start stop step : float) : result Z :=
  let next := (stop - start)%f64 in
  let next_is_nonzero := negb (next == F64.zero)%f64 in
  if F64.is_zero step then Raise ZeroDivisionError
  else
    let val := (next / step)%f64 in
    let val_is_zero := (val == F64.zero)%f64 in
    len <- _arange_safe_ceil_to_intp val ;;
    if val_is_zero && next_is_nonzero then
      Ok (if F64.signbit val then 0 else 1)
    else Ok len.

(** Element [i] of the array: the first two are [start] and
    [start + step]; the others are filled with [start + i * delta],
    where [delta] is the difference of the first two. *)
Definition arange_item (start step : float) (i : nat) : float :=
  match i with
  | O => start
  | S O => (start + step)%f64
  | _ =>
      let delta := ((start + step) - start)%f64 in
      (start + F64.of_Z (Z.of_nat i) * delta)%f64
  end.

(** A block of this many bytes or more exceeds the user address space
    of the x86-64 platform and cannot be allocated; smaller blocks are
    taken to be available. *)
Definition address_space : Z := 2 ^ 47.

(** [arange(start, stop, step)] on floats.  An overflow of the length
    computation is reported as ValueError ("Maximum allowed size
    exceeded"); a length of zero or less gives the empty array.
    Otherwise the array of [length] doubles is allocated, which fails
    with ValueError when its size in bytes is no index and with
    MemoryError when the block cannot be obtained, and then filled. *)
Definition arange (start stop step : float) : result (list float) :=
  match _calc_length start stop step with
  | Raise OverflowError => Raise ValueError
  | Raise e => Raise e
  | Ok length =>
      if length <=? 0 then Ok []
      else if intp_max <? 8 * length then Raise ValueError
      else if address_space <=? 8 * length then Raise MemoryError
      else Ok (map (arange_item start step) (seq 0 (Z.to_nat length)))
  end.

(** [a[i]] on a one-dimensional array: negative indices count from the
    end, indices out of range raise. *)
Definition getitem (a : list float) (i : Z) : result float :=
  let n := Z.of_nat (length a) in
  let j := if i <? 0 then i + n else i in
  if (0 <=? j) && (j <? n) then Ok (nth (Z.to_nat j) a F64.zero)
  else Raise IndexError.

End np.

(** [int(a)] for a float [a]: truncation toward zero. *)
Definition int (a : float) : result Z :=
  match a with
  | S754_nan => Raise ValueError
  | S754_infinity _ => Raise OverflowError
  | _ => Ok (F64.Ztrunc a)
  end.

(** ** The object *)

(** The attributes of [PIDResponseGraph] the simulation and the playback
    read or write.  Of the Matplotlib widgets only the state the callbacks
    depend on is kept: the value of the time slider, the position of the
    time marker, the label of the play button and the index of the sample
    that [_update_data] rendered last. *)
Record PIDResponseGraph : Type := mkGraph {
  _errors : list float;
  _integrals : list float;
  _derivatives : list float;
  _values : list float;
  _t : list float;
  _setpoint : float;
  _Kp : float;
  _Ki : float;
  _Kd : float;
  _is_playing : bool;
  _frame_idx : Z;
  _slider_time_val : float;
  _time_marker : float;
  _btn_play_label : string;
  _rendered_idx : option Z
}.

(** The local variables of [simulate_pid_response] that live across
    iterations of its loop. *)
Module Locals.
Record t : Type := mk {
  x : float;
  v : float;
  integral : float;
  previous_error : float;
  values : list float;
  errors : list float;
  integrals : list float
}.
End Locals.

(** ** [simulate_pid_response] *)

Section Simulation.

Variable self : PIDResponseGraph.
Variable dt : float.

(** The control output of one step, from the error, the updated
    integral and the backward-difference derivative. *)
Definition control (error integral derivative : float) : float :=
  (_Kp self * error + _Ki self * integral + _Kd self * derivative)%f64.

(** One iteration of the [for] loop. *)
Definition loop_body (s : Locals.t) : Locals.t :=
  let x := Locals.x s in
  let v := Locals.v s in
  let error := (_setpoint self - x)%f64 in
  let integral := (Locals.integral s + error * dt)%f64 in
  let derivative := ((error - Locals.previous_error s) / dt)%f64 in
  let u := control error integral derivative in
  let dx := v in
  let dv := (- x - F64.tenth * v + u)%f64 in
  let x := (x + dx * dt)%f64 in
  let v := (v + dv * dt)%f64 in
  Locals.mk x v integral error
    (Locals.values s ++ [x])
    (Locals.errors s ++ [error])
    (Locals.integrals s ++ [integral]).

(** [for _ in range(n): body]. *)
Fixpoint for_range (n : nat) (s : Locals.t) : Locals.t :=
  match n with
  | O => s
  | S k => for_range k (loop_body s)
  end.

End Simulation.

Definition initial_locals : Locals.t :=
  Locals.mk F64.zero F64.zero F64.zero F64.zero [] [] [].

(** [simulate_pid_response(duration, dt)].  Only the call of [np.arange]
    can raise: the loop divides by [dt], which is not zero once the array
    exists, and float overflow yields infinities, not exceptions.  The
    Python lists the loop appends to are taken to fit in memory. *)
Definition simulate_pid_response
    (self : PIDResponseGraph) (duration dt : float) : result PIDResponseGraph :=
  t <- np.arange F64.zero duration dt ;;
  let s := for_range self dt (length t) initial_locals in
  Ok (mkGraph
        (Locals.errors s) (Locals.integrals s) (_derivatives self)
        (Locals.values s) t
        (_setpoint self) (_Kp self) (_Ki self) (_Kd self)
        (_is_playing self) (_frame_idx self) (_slider_time_val self)
        (_time_marker self) (_btn_play_label self) (_rendered_idx self)).

(** ** Scrubbing and playback *)

Definition set_rendered_idx (self : PIDResponseGraph) (idx : Z) : PIDResponseGraph :=
  mkGraph
    (_errors self) (_integrals self) (_derivatives self)
    (_values self) (_t self)
    (_setpoint self) (_Kp self) (_Ki self) (_Kd self)
    (_is_playing self) (_frame_idx self) (_slider_time_val self)
    (_time_marker self) (_btn_play_label self) (Some idx).

Definition set_slider_time_val (self : PIDResponseGraph) (val : float) : PIDResponseGraph :=
  mkGraph
    (_errors self) (_integrals self) (_derivatives self)
    (_values self) (_t self)
    (_setpoint self) (_Kp self) (_Ki self) (_Kd self)
    (_is_playing self) (_frame_idx self) val
    (_time_marker self) (_btn_play_label self) (_rendered_idx self).

(** [_update_data(idx)]: reads the samples it renders (the error and the
    integral at [idx] and, away from the ends, the neighbours used for the
    central differences); rendering itself is kept as the index shown. *)
Definition _update_data (self : PIDResponseGraph) (idx : Z) : result PIDResponseGraph :=
  _ <- np.getitem (_errors self) idx ;;
  _ <- np.getitem (_integrals self) idx ;;
  _ <- (if (0 <? idx) && (idx <? Z.of_nat (length (_t self)) - 1) then
          _ <- np.getitem (_errors self) (idx + 1) ;;
          _ <- np.getitem (_errors self) (idx - 1) ;;
          _ <- np.getitem (_values self) (idx + 1) ;;
          _ <- np.getitem (_values self) (idx - 1) ;;
          np.getitem (_t self) idx
        else Ok F64.zero) ;;
  Ok (set_rendered_idx self idx).

(** The first two statements of [_on_time_change]: the index of the
    sample shown for the slider value [val]. *)
Definition sample_index (self : PIDResponseGraph) (val : float) : result Z :=
  t1 <- np.getitem (_t self) 1 ;;
  t0 <- np.getitem (_t self) 0 ;;
  idx <- int (val / (t1 - t0))%f64 ;;
  Ok (Z.min (Z.max 0 idx) (Z.of_nat (length (_t self)) - 1)).

Definition set_time_marker (self : PIDResponseGraph) (val : float) : PIDResponseGraph :=
  mkGraph
    (_errors self) (_integrals self) (_derivatives self)
    (_values self) (_t self)
    (_setpoint self) (_Kp self) (_Ki self) (_Kd self)
    (_is_playing self) (_frame_idx self) (_slider_time_val self)
    val (_btn_play_label self) (_rendered_idx self).

Definition _on_time_change (self : PIDResponseGraph) (val : float) : result PIDResponseGraph :=
  idx <- sample_index self val ;;
  self <- _update_data self idx ;;
  Ok (set_time_marker self val).

(** [self._slider_time.set_val(val)]: stores the value and runs the
    callback registered with [on_changed]. *)
Definition slider_time_set_val (self : PIDResponseGraph) (val : float) : result PIDResponseGraph :=
  _on_time_change (set_slider_time_val self val) val.

Definition set_playback
    (self : PIDResponseGraph) (playing : bool) (frame : Z) (label : string) : PIDResponseGraph :=
  mkGraph
    (_errors self) (_integrals self) (_derivatives self)
    (_values self) (_t self)
    (_setpoint self) (_Kp self) (_Ki self) (_Kd self)
    playing frame (_slider_time_val self)
    (_time_marker self) label (_rendered_idx self).

Definition _toggle_play (self : PIDResponseGraph) : PIDResponseGraph :=
  let playing := negb (_is_playing self) in
  set_playback self playing (_frame_idx self)
    (if playing then "Pause" else "Play")%string.

(** One tick of the animation timer. *)
Definition _animate (self : PIDResponseGraph) : result PIDResponseGraph :=
  if _is_playing self then
    let idx := _frame_idx self in
    if idx <? Z.of_nat (length (_t self)) - 1 then
      val <- np.getitem (_t self) idx ;;
      self <- slider_time_set_val self val ;;
      Ok (set_playback self (_is_playing self) (_frame_idx self + 10)
            (_btn_play_label self))
    else
      Ok (set_playback self false 0 "Play"%string)
  else Ok self.

(** ** Traces *)

(** The four parallel sequences a run leaves in the object. *)
Record SimulationTrace : Type := mkTrace {
  t : list float;
  value : list float;
  error : list float;
  integral : list float
}.

Definition trace_of (self : PIDResponseGraph) : SimulationTrace :=
  mkTrace (_t self) (_values self) (_errors self) (_integrals self).

Definition map_result {A B : Type} (f : A -> B) (r : result A) : result B :=
  match r with
  | Ok a => Ok (f a)
  | Raise e => Raise e
  end.

(** An object that holds no trace yet, with playback stopped at frame 0
    as [_init_ui] sets it, for given setpoint and gains. *)
Definition fresh (setpoint Kp Ki Kd : float) : PIDResponseGraph :=
  mkGraph [] [] [] [] [] setpoint Kp Ki Kd
    false 0 F64.zero F64.zero "Play"%string None.

(** ** Vocabulary of the statements *)

(** The locals on entry to step [i] of a run (after [i] iterations). *)
Definition locals_at (self : PIDResponseGraph) (dt : float) (i : nat) : Locals.t :=
  for_range self dt i initial_locals.

(** The sum of [e * dt] over a list of errors, accumulated from the left
    starting at zero. *)
Definition running_sum (dt : float) (errors : list float) : float :=
  fold_left (fun acc e => (acc + e * dt)%f64) errors F64.zero.

(** [a] added [n] times to zero, from the left. *)
Fixpoint repeated_add (a : float) (n : nat) : float :=
  match n with
  | O => F64.zero
  | S k => (repeated_add a k + a)%f64
  end.

(** The quotient that decides the number of samples is a finite float
    whose ceiling fits NumPy's index type. *)
Definition count_fits (duration dt : float) : bool :=
  let q := (duration / dt)%f64 in
  F64.is_finite q
  && (np.intp_min <=? F64.Zceil q) && (F64.Zceil q <=? np.intp_max).

(** The quotient passes the range test of the length computation: it is
    a finite float whose ceiling lies between -2^63 and 2^63. *)
Definition count_in_range (duration dt : float) : bool :=
  let q := (duration / dt)%f64 in
  F64.is_finite q
  && (np.intp_min <=? F64.Zceil q) && (F64.Zceil q <=? np.intp_max + 1).

(** A finite float that is a well-formed binary64 datum. *)
Definition finite_valid (a : float) : bool :=
  F64.is_finite a && F64.valid a.

Definition clamp (z lo hi : Z) : Z := Z.min (Z.max lo z) hi.

(** A record [mrs] under rounding stands for the rational [num / den]:
    its mantissa is the integer quotient, and a set round or sticky bit
    means the division left a remainder. *)
Definition stands_for (num den : Z) (mrs : shr_record) : Prop :=
  0 < den /\ 0 <= num
  /\ shr_m mrs = num / den
  /\ (shr_r mrs || shr_s mrs = true -> num mod den <> 0).

(** The float that [binary_round_aux] builds from the final mantissa and
    exponent of a rounding. *)
Definition assemble (s : bool) (m e : Z) : float :=
  match m with
  | Z0 => S754_zero s
  | Zpos p =>
      if e <=? F64.emax - F64.prec then S754_finite s p e
      else S754_infinity s
  | Zneg _ => S754_nan
  end.

(** The two states of the playback mechanism. *)
Inductive play_state : Set := Stopped | Playing.

Definition state_of (self : PIDResponseGraph) : play_state :=
  if _is_playing self then Playing else Stopped.

(** ** Re-simulation and the timer *)

(** The default arguments of [simulate_pid_response]. *)
Definition default_duration : float := F64.ten.
Definition default_dt : float := F64.hundredth.

Definition set_gains (self : PIDResponseGraph) (Kp Ki Kd : float) : PIDResponseGraph :=
  mkGraph
    (_errors self) (_integrals self) (_derivatives self)
    (_values self) (_t self)
    (_setpoint self) Kp Ki Kd
    (_is_playing self) (_frame_idx self) (_slider_time_val self)
    (_time_marker self) (_btn_play_label self) (_rendered_idx self).

(** [_update_plot(val)]: the gains are read from the three gain sliders,
    whose values are the arguments here; the response is recomputed with
    the default duration and step; the upper end of the time slider
    becomes [t[-1]]; the sample at the current slider time is rendered. *)
Definition _update_plot
    (self : PIDResponseGraph) (slider_kp slider_ki slider_kd : float)
  : result PIDResponseGraph :=
  let self := set_gains self slider_kp slider_ki slider_kd in
  self <- simulate_pid_response self default_duration default_dt ;;
  _ <- np.getitem (_t self) (-1) ;;
  _on_time_change self (_slider_time_val self).

(** The animation timer firing [n] times. *)
Fixpoint ticks (n : nat) (self : PIDResponseGraph) : result PIDResponseGraph :=
  match n with
  | O => Ok self
  | S k => self <- _animate self ;; ticks k self
  end.

(** The four arrays of the object have the same length. *)
Definition consistent (self : PIDResponseGraph) : Prop :=
  length (_values self) = length (_t self)
  /\ length (_errors self) = length (_t self)
  /\ length (_integrals self) = length (_t self).

(** The label of the play button names the action it will perform. *)
Definition label_ok (self : PIDResponseGraph) : Prop :=
  _btn_play_label self = (if _is_playing self then "Pause" else "Play")%string.

(** The lookup of the time of every sample before the last succeeds. *)
Definition lookups_ok (self : PIDResponseGraph) : bool :=
  forallb
    (fun f =>
       match sample_index self (nth f (_t self) F64.zero) with
       | Ok _ => true
       | Raise _ => false
       end)
    (seq 0 (length (_t self) - 1)).

(** The number of ticks playback shows a sample for, from frame [f] on a
    trace of [n] samples. *)
Definition frames_left (f : Z) (n : nat) : nat :=
  Z.to_nat ((Z.of_nat n - 1 - f + 9) / 10).

(** Two objects hold the same simulation data: trace, setpoint, gains and
    the (never filled) list of derivatives. *)
Definition same_data (a b : PIDResponseGraph) : Prop :=
  trace_of a = trace_of b
  /\ _setpoint a = _setpoint b
  /\ _Kp a = _Kp b /\ _Ki a = _Ki b /\ _Kd a = _Kd b
  /\ _derivatives a = _derivatives b.

(** The frame index is a non-negative multiple of the playback stride. *)
Definition frame_ok (self : PIDResponseGraph) : Prop :=
  0 <= _frame_idx self /\ _frame_idx self mod 10 = 0.

(** The last sample time of a run with the default duration and step,
    the upper end of the time slider. *)
Definition default_last : float := np.arange_item F64.zero default_dt 999.

(** * Properties *)

(** ** Facts about binary64 arithmetic *)

Section Binary64Facts.

Lemma sub_zero_r (a : float) : (a - F64.zero)%f64 = a.
Proof. destruct a as [[]|[]| |[] m e]; reflexivity. Qed.

Lemma add_zero_l (a : float) :
  F64.is_zero a = false -> (F64.zero + a)%f64 = a.
Proof. destruct a as [[]|[]| |[] m e]; try reflexivity; discriminate. Qed.

Lemma positive_inv (a : float) :
  F64.ltb F64.zero a = true ->
  a = S754_infinity false \/ exists m e, a = S754_finite false m e.
Proof.
  destruct a as [s|[]| |[] m e]; try discriminate; eauto.
Qed.

Lemma nonpositive_inv (a : float) :
  F64.leb a F64.zero = true ->
  (exists s, a = S754_zero s) \/ a = S754_infinity true
  \/ exists m e, a = S754_finite true m e.
Proof.
  destruct a as [s|[]| |[] m e]; try discriminate; eauto.
Qed.

Lemma eqb_refl (a : float) : a <> S754_nan -> (a == a)%f64 = true.
Proof.
  destruct a as [s|[]| |[] m e]; try reflexivity; try congruence; intros _;
    unfold F64.eqb, SFeqb, SFcompare;
    now rewrite Z.compare_refl, Pos.compare_cont_refl.
Qed.

(** *** Rounding never invents a NaN or changes the sign *)

Lemma iter_pos_invariant {A : Type} (P : A -> Prop) (f : A -> A) :
  (forall a, P a -> P (f a)) ->
  forall (p : positive) (a : A), P a -> P (iter_pos f p a).
Proof.
  intros Hf. induction p as [p IH|p IH|]; intros a Ha; cbn; auto.
Qed.

Lemma shr_1_nonneg (mrs : shr_record) :
  0 <= shr_m mrs -> 0 <= shr_m (shr_1 mrs).
Proof.
  destruct mrs as [m r s]. cbn [shr_m].
  destruct m as [|[p|p|]|p]; cbn; lia.
Qed.

Lemma shr_nonneg (mrs : shr_record) (e n : Z) :
  0 <= shr_m mrs -> 0 <= shr_m (fst (shr mrs e n)).
Proof.
  intros H. destruct n as [|p|p]; cbn [shr fst]; trivial.
  now apply (iter_pos_invariant (fun a => 0 <= shr_m a)), H;
    apply shr_1_nonneg.
Qed.

Lemma shr_fexp_nonneg (m e : Z) (l : location) :
  0 <= m -> 0 <= shr_m (fst (shr_fexp F64.prec F64.emax m e l)).
Proof.
  intros H. unfold shr_fexp. apply shr_nonneg.
  destruct l as [|[]]; exact H.
Qed.

Lemma round_nearest_even_nonneg (m : Z) (l : location) :
  0 <= m -> 0 <= round_nearest_even m l.
Proof.
  intros H. destruct l as [|[]]; cbn; try lia.
  destruct (Z.even m); lia.
Qed.

(** The float a rounding returns for a non-negative integer mantissa is
    a zero, a finite number or an infinity of the sign asked for. *)
Lemma binary_round_aux_cases (s : bool) (m e : Z) (l : location) :
  0 <= m ->
  let a := binary_round_aux F64.prec F64.emax s m e l in
  a = S754_zero s \/ a = S754_infinity s
  \/ exists m' e', a = S754_finite s m' e'.
Proof.
  intros H a. subst a. unfold binary_round_aux.
  pose proof (shr_fexp_nonneg m e l H) as H1.
  destruct (shr_fexp F64.prec F64.emax m e l) as [mrs1 e1].
  cbn [fst] in H1.
  pose proof (shr_fexp_nonneg
                (round_nearest_even (shr_m mrs1) (loc_of_shr_record mrs1))
                e1 loc_Exact (round_nearest_even_nonneg _ _ H1)) as H2.
  destruct (shr_fexp F64.prec F64.emax _ e1 loc_Exact) as [mrs2 e2].
  cbn [fst] in H2.
  destruct (shr_m mrs2) as [|p|p]; [auto| |lia].
  destruct (e2 <=? F64.emax - F64.prec); eauto.
Qed.

Lemma of_Z_nonneg_cases (z : Z) :
  0 <= z ->
  F64.of_Z z = S754_zero false \/ F64.of_Z z = S754_infinity false
  \/ exists m e, F64.of_Z z = S754_finite false m e.
Proof.
  intros H. unfold F64.of_Z, binary_normalize.
  destruct z as [|p|p]; [auto| |lia].
  unfold binary_round.
  destruct (shl_align p 0 _) as [mz ez].
  apply binary_round_aux_cases. lia.
Qed.

Lemma mul_finite_cases (s1 s2 : bool) (m1 m2 : positive) (e1 e2 : Z) :
  let a := (S754_finite s1 m1 e1 * S754_finite s2 m2 e2)%f64 in
  a = S754_zero (xorb s1 s2) \/ a = S754_infinity (xorb s1 s2)
  \/ exists m e, a = S754_finite (xorb s1 s2) m e.
Proof. apply binary_round_aux_cases. lia. Qed.

Lemma div_finite_cases (s1 s2 : bool) (m1 m2 : positive) (e1 e2 : Z) :
  let a := (S754_finite s1 m1 e1 / S754_finite s2 m2 e2)%f64 in
  a = S754_zero (xorb s1 s2) \/ a = S754_infinity (xorb s1 s2)
  \/ exists m e, a = S754_finite (xorb s1 s2) m e.
Proof.
  unfold F64.div, SFdiv.
  destruct (SFdiv_core_binary _ _ _ _ _ _) as [[mz ez] lz] eqn:E.
  apply binary_round_aux_cases.
  unfold SFdiv_core_binary in E.
  set (m' := match _ with Z0 => _ | Zpos _ => _ | Zneg _ => _ end) in E.
  assert (0 <= m').
  { subst m'. destruct (_ - _ - _) as [|p|p]; try lia.
    rewrite Z.shiftl_mul_pow2 by lia. apply Z.mul_nonneg_nonneg; lia. }
  pose proof (Z.div_eucl_eq m' (Zpos m2) ltac:(lia)) as Hq.
  pose proof (Z_div_mod m' (Zpos m2) ltac:(lia)) as Hr.
  destruct (Z.div_eucl m' (Z.pos m2)) as [q r].
  injection E as <- _ _. nia.
Qed.

(** *** Multiplication by one is exact *)

Lemma digits2_pos_mul_2p52 (m : positive) :
  Zpos (digits2_pos (4503599627370496 * m)) = Zpos (digits2_pos m) + 52.
Proof.
  cbn [Pos.mul digits2_pos]. rewrite !Pos2Z.inj_succ. lia.
Qed.

Lemma mul_one_l (a : float) :
  F64.is_finite a = true -> F64.valid a = true -> (F64.one * a)%f64 = a.
Proof.
  destruct a as [s|s| |s m e]; try discriminate; intros _ Hv.
  - reflexivity.
  - unfold F64.valid, valid_binary, bounded, canonical_mantissa in Hv.
    apply andb_true_iff in Hv. destruct Hv as [Hc Hb].
    apply Z.eqb_eq in Hc.
    unfold F64.mul, F64.one, SFmul. cbn [xorb].
    unfold binary_round_aux, shr_fexp.
    unfold Zdigits2 at 1. rewrite digits2_pos_mul_2p52.
    replace (Z.pos (digits2_pos m) + 52 + (-52 + e))
      with (Z.pos (digits2_pos m) + e) by lia.
    rewrite Hc.
    replace (e - (-52 + e)) with 52 by lia.
    cbn [shr shr_record_of_loc Pos.mul iter_pos shr_1 orb].
    cbn [loc_of_shr_record shr_m round_nearest_even].
    replace (-52 + e + 52) with e by lia.
    cbn [Zdigits2]. rewrite Hc, Z.sub_diag. cbn [shr shr_m].
    rewrite Hb. reflexivity.
Qed.

(** *** Integer roundings and signs *)

Lemma Zceil_negative (m : positive) (e : Z) :
  F64.Zceil (S754_finite true m e) <= 0.
Proof.
  unfold F64.Zceil. cbn [F64.exponent F64.signed_mantissa cond_Zopp].
  destruct e as [|p|p].
  - cbn. lia.
  - pose proof (Z.pow_pos_nonneg 2 (Zpos p)). nia.
  - rewrite Z.opp_involutive. cbn [Z.opp].
    pose proof (Z.div_pos (Zpos m) (2 ^ Zpos p)).
    pose proof (Z.pow_pos_nonneg 2 (Zpos p)). lia.
Qed.

Lemma Zceil_zero (s : bool) : F64.Zceil (S754_zero s) = 0.
Proof. reflexivity. Qed.

End Binary64Facts.

(** ** Arithmetic on zeros *)

Section ZeroFacts.

Lemma is_zero_inv (a : float) :
  F64.is_zero a = true -> exists s, a = S754_zero s.
Proof. destruct a; try discriminate; eauto. Qed.

Lemma mul_zero_l (a b : float) :
  F64.is_zero a = true -> F64.is_finite b = true ->
  F64.is_zero (a * b)%f64 = true.
Proof. destruct a, b; try discriminate; reflexivity. Qed.

Lemma mul_zero_r (a b : float) :
  F64.is_finite a = true -> F64.is_zero b = true ->
  F64.is_zero (a * b)%f64 = true.
Proof. destruct a, b; try discriminate; reflexivity. Qed.

Lemma add_zero_zero (a b : float) :
  F64.is_zero a = true -> F64.is_zero b = true ->
  F64.is_zero (a + b)%f64 = true.
Proof.
  destruct a as [[]| | |], b as [[]| | |]; try discriminate; reflexivity.
Qed.

Lemma sub_zero_zero (a b : float) :
  F64.is_zero a = true -> F64.is_zero b = true ->
  F64.is_zero (a - b)%f64 = true.
Proof.
  destruct a as [[]| | |], b as [[]| | |]; try discriminate; reflexivity.
Qed.

Lemma opp_zero (a : float) :
  F64.is_zero a = true -> F64.is_zero (- a)%f64 = true.
Proof. destruct a; try discriminate; reflexivity. Qed.

Lemma div_zero_l (a b : float) :
  F64.is_zero a = true -> F64.is_finite b = true -> F64.is_zero b = false ->
  F64.is_zero (a / b)%f64 = true.
Proof. destruct a, b; try discriminate; reflexivity. Qed.

Lemma sub_finite_zero (s : bool) (m : positive) (e : Z) (b : float) :
  F64.is_zero b = true ->
  (S754_finite s m e - b)%f64 = S754_finite s m e.
Proof. destruct b; try discriminate; reflexivity. Qed.

Lemma sub_diag_finite (s : bool) (m : positive) (e : Z) :
  (S754_finite s m e - S754_finite s m e)%f64 = S754_zero false.
Proof.
  unfold F64.sub, SFsub. cbv zeta. now rewrite Z.sub_diag.
Qed.

Lemma is_finite_add_l (a b : float) :
  F64.is_finite (a + b)%f64 = true -> F64.is_finite a = true.
Proof.
  destruct a as [s|[]| |s m e], b as [s'|[]| |s' m' e'];
    try reflexivity; discriminate.
Qed.

Lemma is_finite_mul_l (a b : float) :
  F64.is_finite (a * b)%f64 = true -> F64.is_finite a = true.
Proof.
  destruct a as [s|s| |s m e], b as [s'|s'| |s' m' e'];
    try reflexivity; discriminate.
Qed.

Lemma is_finite_mul_r (a b : float) :
  F64.is_finite (a * b)%f64 = true -> F64.is_finite b = true.
Proof.
  destruct a as [s|s| |s m e], b as [s'|s'| |s' m' e'];
    try reflexivity; discriminate.
Qed.

Lemma eqb_zero_zero (a b : float) :
  F64.is_zero a = true -> F64.is_zero b = true -> (a == b)%f64 = true.
Proof. destruct a, b; try discriminate; reflexivity. Qed.

Lemma is_zero_finite (a : float) :
  F64.is_zero a = true -> F64.is_finite a = true.
Proof. destruct a; try discriminate; reflexivity. Qed.

Lemma is_finite_not_nan (a : float) :
  F64.is_finite a = true -> a <> S754_nan.
Proof. destruct a; try discriminate; congruence. Qed.

End ZeroFacts.

(** ** Rounding, as integer arithmetic *)

(** The rounding of [SpecFloat] shifts a mantissa to the right while it
    keeps a round bit and a sticky bit; [stands_for] follows the rational
    a record represents through the shifts. *)

Section Shifts.

Lemma shr_1_stands_for (num den : Z) (mrs : shr_record) :
  stands_for num den mrs -> stands_for num (den * 2) (shr_1 mrs).
Proof.
  intros (Hden & Hnum & Hm & Hrs).
  assert (Hdiv : num / (den * 2) = num / den / 2)
    by (rewrite Z.div_div by lia; reflexivity).
  assert (Hm0 : 0 <= num / den) by (apply Z.div_pos; lia).
  assert (Hexact : num mod (den * 2) = 0 ->
                   num mod den = 0 /\ Z.even (num / den) = true).
  { intros H0.
    apply Z.mod_divide in H0; [|lia]. destruct H0 as [c Hc].
    subst num. split.
    - rewrite Z.mul_assoc, (Z.mul_comm (c * den)), Z.mul_assoc.
      apply Z.mod_mul. lia.
    - replace (c * (den * 2)) with (c * 2 * den) by ring.
      rewrite Z.div_mul by lia.
      rewrite Z.even_mul. cbn. apply orb_true_r. }
  destruct mrs as [m r s]. cbn [shr_m shr_r shr_s] in *.
  split; [lia|]. split; [lia|].
  rewrite Hdiv, <- Hm.
  destruct m as [|[p|p|]|p]; cbn [shr_1 shr_m shr_r shr_s]; try lia.
  - split; [reflexivity|].
    intros Hb H0. destruct (Hexact H0) as [H1 _]. cbn in Hb. tauto.
  - split; [now rewrite Pos2Z.inj_xI, Z.mul_comm, Z.div_add_l by lia|].
    intros _ H0. destruct (Hexact H0) as [_ H2].
    rewrite <- Hm in H2. discriminate.
  - split; [now rewrite Pos2Z.inj_xO, Z.mul_comm, Z.div_mul by lia|].
    intros Hb H0. destruct (Hexact H0) as [H1 _]. cbn in Hb. tauto.
  - split; [reflexivity|].
    intros _ H0. destruct (Hexact H0) as [_ H2].
    rewrite <- Hm in H2. discriminate.
Qed.

Lemma iter_shr_1_stands_for (p : positive) :
  forall (num den : Z) (mrs : shr_record),
    stands_for num den mrs ->
    stands_for num (den * 2 ^ Zpos p) (iter_pos shr_1 p mrs).
Proof.
  induction p as [p IH|p IH|]; intros num den mrs H; cbn [iter_pos].
  - apply shr_1_stands_for in H. apply IH, IH in H.
    replace (den * 2 ^ Zpos p~1) with (den * 2 * 2 ^ Zpos p * 2 ^ Zpos p);
      [exact H|].
    replace (Zpos p~1) with (Zpos p + Zpos p + 1) by lia.
    rewrite !Z.pow_add_r by lia. change (2 ^ 1) with 2. ring.
  - apply IH, IH in H.
    replace (den * 2 ^ Zpos p~0) with (den * 2 ^ Zpos p * 2 ^ Zpos p);
      [exact H|].
    replace (Zpos p~0) with (Zpos p + Zpos p) by lia.
    rewrite Z.pow_add_r by lia. ring.
  - apply shr_1_stands_for in H. exact H.
Qed.

End Shifts.

Section Rounding.

Local Abbreviation fexp := (SpecFloat.fexp F64.prec F64.emax).

Lemma fexp_eq (z : Z) : fexp z = Z.max (z - 53) (-1074).
Proof. reflexivity. Qed.

Lemma pow2_pos (z : Z) : 0 <= z -> 0 < 2 ^ z.
Proof. intros. apply Z.pow_pos_nonneg; lia. Qed.

Lemma digits2_pos_bounds (p : positive) :
  2 ^ (Zpos (digits2_pos p) - 1) <= Zpos p < 2 ^ Zpos (digits2_pos p).
Proof.
  induction p as [p IH|p IH|]; cbn [digits2_pos];
    [| |cbn; lia];
    rewrite Pos2Z.inj_succ;
    replace (Z.succ (Zpos (digits2_pos p)) - 1)
      with (Zpos (digits2_pos p) - 1 + 1) by lia;
    replace (Z.succ (Zpos (digits2_pos p)))
      with (Zpos (digits2_pos p) + 1) by lia;
    rewrite !Z.pow_add_r by lia; change (2 ^ 1) with 2; lia.
Qed.

Lemma shr_stands_for (num den : Z) (mrs : shr_record) (e n : Z) :
  stands_for num den mrs ->
  stands_for num (den * 2 ^ Z.max n 0) (fst (shr mrs e n))
  /\ snd (shr mrs e n) = e + Z.max n 0.
Proof.
  intros H. destruct n as [|p|p]; cbn [shr fst snd Z.max Z.compare].
  - rewrite Z.mul_1_r, Z.add_0_r. auto.
  - split; [|reflexivity]. now apply iter_shr_1_stands_for.
  - change (Z.max (Z.neg p) 0) with 0.
    rewrite Z.mul_1_r, Z.add_0_r. auto.
Qed.

Lemma shr_record_of_loc_stands_for (num den m : Z) (l : location) :
  0 < den -> 0 <= num -> m = num / den ->
  (l <> loc_Exact -> num mod den <> 0) ->
  stands_for num den (shr_record_of_loc m l).
Proof.
  intros Hden Hnum Hm Hl. repeat split; trivial.
  - now destruct l as [|[]].
  - destruct l as [|[]]; cbn; intros Hb; try discriminate;
      apply Hl; discriminate.
Qed.

Lemma round_nearest_even_stands_for (num den : Z) (mrs : shr_record) :
  stands_for num den mrs ->
  let m2 := round_nearest_even (shr_m mrs) (loc_of_shr_record mrs) in
  shr_m mrs <= m2 <= shr_m mrs + 1
  /\ (m2 <> shr_m mrs -> num mod den <> 0).
Proof.
  intros (_ & _ & _ & Hrs) m2. subst m2.
  destruct mrs as [m [] []]; cbn [shr_m shr_r shr_s orb] in *;
    cbn [loc_of_shr_record round_nearest_even];
    try destruct (Z.even m); split; try lia; auto.
Qed.

(** A shift that lands on a positive exponent leaves a full mantissa. *)
Lemma shift_normal (m e : Z) :
  0 <= m ->
  let n := Z.max (fexp (Zdigits2 m + e) - e) 0 in
  0 < n -> 0 < e + n -> 2 ^ 52 <= m / 2 ^ n.
Proof.
  intros Hm n Hn He. subst n. rewrite fexp_eq in *.
  destruct m as [|p|p]; [cbn [Zdigits2] in *; lia| |lia].
  cbn [Zdigits2] in *.
  pose proof (digits2_pos_bounds p) as [Hlo _].
  set (d := Zpos (digits2_pos p)) in *.
  assert (En : Z.max (Z.max (d + e - 53) (-1074) - e) 0 = d - 53) by lia.
  rewrite En.
  apply Z.div_le_lower_bound; [apply pow2_pos; lia|].
  rewrite <- Z.pow_add_r by lia.
  replace (d - 53 + 52) with (d - 1) by lia. exact Hlo.
Qed.

(** Rounding the rational [num / den * 2 ^ e], given by its integer
    part [m] and a location [l], against an integer [k]: the result
    is not below [k] when the rational is not, and not above [k] when
    the rational is not.  All quantities are scaled by [2 ^ L]. *)
Lemma binary_round_aux_bounds
    (s : bool) (m e : Z) (l : location) (num den L : Z) :
  0 < den -> 0 <= num -> m = num / den ->
  (l <> loc_Exact -> num mod den <> 0) ->
  (0 < e -> 2 ^ 52 <= m) ->
  0 <= L -> 0 <= e + L ->
  exists m3 e3,
    0 <= m3 /\ e <= e3
    /\ binary_round_aux F64.prec F64.emax s m e l = assemble s m3 e3
    /\ (forall k, 0 <= k <= 2 ^ 53 ->
          k * den * 2 ^ L <= num * 2 ^ (e + L) ->
          k * 2 ^ L <= m3 * 2 ^ (e3 + L))
    /\ (forall k, 0 <= k < 2 ^ 53 ->
          num * 2 ^ (e + L) <= k * den * 2 ^ L ->
          m3 * 2 ^ (e3 + L) <= k * 2 ^ L).
Proof.
  intros Hden Hnum Hm Hl Hnorm HL HeL.
  assert (Hm0 : 0 <= m) by (subst m; apply Z.div_pos; lia).
  unfold binary_round_aux.
  (* first shift *)
  pose proof (shr_record_of_loc_stands_for num den m l Hden Hnum Hm Hl) as H0.
  unfold shr_fexp at 1.
  set (n1 := Z.max (fexp (Zdigits2 m + e) - e) 0).
  destruct (shr_stands_for num den _ e (fexp (Zdigits2 m + e) - e) H0)
    as [H1 He1].
  fold n1 in H1, He1.
  destruct (shr (shr_record_of_loc m l) e (fexp (Zdigits2 m + e) - e))
    as [mrs1 e1].
  cbn [fst snd] in H1, He1.
  set (den1 := den * 2 ^ n1) in *.
  set (m1 := shr_m mrs1) in *.
  assert (Hn1 : 0 <= n1) by (subst n1; lia).
  assert (Hp1 : 0 < 2 ^ n1) by now apply pow2_pos.
  assert (Hden1 : 0 < den1) by (subst den1; lia).
  assert (Em1 : m1 = num / den1) by (subst m1; apply H1).
  assert (Em1' : m1 = m / 2 ^ n1).
  { rewrite Em1, Hm. subst den1. now rewrite Z.div_div by lia. }
  assert (Hm1 : 0 <= m1) by (rewrite Em1; apply Z.div_pos; lia).
  assert (Hnorm1 : 0 < e1 -> 2 ^ 52 <= m1).
  { intros Hpos. destruct (Z.eq_dec n1 0) as [E0|N0].
    - rewrite Em1', E0, Z.div_1_r. apply Hnorm. lia.
    - rewrite Em1'. apply shift_normal; fold n1; lia. }
  (* rounding *)
  destruct (round_nearest_even_stands_for num den1 mrs1 H1) as [Hm2 Hinex].
  fold m1 in Hm2, Hinex.
  set (m2 := round_nearest_even m1 (loc_of_shr_record mrs1)) in *.
  (* second shift *)
  assert (H2 : stands_for m2 1 (shr_record_of_loc m2 loc_Exact)).
  { apply shr_record_of_loc_stands_for; try lia.
    - now rewrite Z.div_1_r.
    - congruence. }
  unfold shr_fexp.
  set (n2 := Z.max (fexp (Zdigits2 m2 + e1) - e1) 0).
  destruct (shr_stands_for m2 1 _ e1 (fexp (Zdigits2 m2 + e1) - e1) H2)
    as [H3 He3].
  fold n2 in H3, He3.
  destruct (shr (shr_record_of_loc m2 loc_Exact) e1
              (fexp (Zdigits2 m2 + e1) - e1)) as [mrs3 e3].
  cbn [fst snd] in H3, He3.
  set (m3 := shr_m mrs3) in *.
  assert (Hn2 : 0 <= n2) by (subst n2; lia).
  assert (Hp2 : 0 < 2 ^ n2) by now apply pow2_pos.
  assert (Em3 : m3 = m2 / 2 ^ n2).
  { subst m3. destruct H3 as (_ & _ & -> & _). now rewrite Z.mul_1_l. }
  assert (Hm3 : 0 <= m3) by (rewrite Em3; apply Z.div_pos; lia).
  assert (Hnorm3 : 0 < e3 -> 2 ^ 52 <= m3).
  { intros Hpos. destruct (Z.eq_dec n2 0) as [E0|N0].
    - rewrite Em3, E0, Z.div_1_r.
      assert (2 ^ 52 <= m1) by (apply Hnorm1; lia). lia.
    - rewrite Em3. apply shift_normal; fold n2; lia. }
  exists m3, e3.
  split; [exact Hm3|]. split; [lia|]. split; [reflexivity|].
  assert (HpL : 0 < 2 ^ L) by now apply pow2_pos.
  assert (HpeL : 0 < 2 ^ (e + L)) by now apply pow2_pos.
  split.
  - (* lower bound *)
    intros k Hk Hge.
    destruct (Z_lt_le_dec 0 e3) as [Hpos|Hneg].
    + specialize (Hnorm3 Hpos).
      replace (e3 + L) with (1 + (e3 - 1) + L) by lia.
      rewrite !Z.pow_add_r by lia. change (2 ^ 1) with 2.
      assert (Hp3 : 0 < 2 ^ (e3 - 1)) by (apply pow2_pos; lia).
      change (2 ^ 53) with (2 ^ 52 * 2) in Hk.
      assert (Hkm : k <= m3 * (2 * 2 ^ (e3 - 1)))
        by (clear - Hk Hnorm3 Hp3; nia).
      clear - Hkm HpL. nia.
    + assert (He0 : e <= 0) by lia.
      assert (Ee : 2 ^ L = 2 ^ (- e) * 2 ^ (e + L)).
      { rewrite <- Z.pow_add_r by lia. f_equal. lia. }
      assert (Hge' : k * den * 2 ^ (- e) <= num).
      { rewrite Ee in Hge. clear - Hge HpeL. nia. }
      assert (Ee1 : 2 ^ (- e) = 2 ^ n1 * 2 ^ (- e1)).
      { rewrite <- Z.pow_add_r by lia. f_equal. lia. }
      assert (Hk1 : k * 2 ^ (- e1) <= m1).
      { rewrite Em1. apply Z.div_le_lower_bound; [lia|].
        subst den1. rewrite Ee1 in Hge'. clear - Hge'. nia. }
      assert (Ee3 : 2 ^ (- e1) = 2 ^ n2 * 2 ^ (- e3)).
      { rewrite <- Z.pow_add_r by lia. f_equal. lia. }
      assert (Hk3 : k * 2 ^ (- e3) <= m3).
      { rewrite Em3. apply Z.div_le_lower_bound; [lia|].
        rewrite Ee3 in Hk1. clear - Hk1 Hm2. nia. }
      assert (EL : 2 ^ L = 2 ^ (- e3) * 2 ^ (e3 + L)).
      { rewrite <- Z.pow_add_r by lia. f_equal. lia. }
      assert (HpE3 : 0 < 2 ^ (e3 + L)) by (apply pow2_pos; lia).
      rewrite EL. clear - Hk3 HpE3. nia.
  - (* upper bound *)
    intros k Hk Hle.
    assert (Hfloor : m1 * den1 <= num).
    { rewrite Em1, Z.mul_comm. apply Z.mul_div_le. lia. }
    destruct (Z_lt_le_dec 0 e1) as [Hpos|Hneg].
    + exfalso. specialize (Hnorm1 Hpos).
      assert (Ee : 2 ^ (e1 + L) = 2 ^ n1 * 2 ^ (e + L)).
      { rewrite <- Z.pow_add_r by lia. f_equal. lia. }
      assert (Ee' : 2 ^ (e1 + L) = 2 * 2 ^ (e1 - 1) * 2 ^ L).
      { change 2 with (2 ^ 1) at 2. rewrite <- !Z.pow_add_r by lia.
        f_equal. lia. }
      assert (Hp1' : 0 < 2 ^ (e1 - 1)) by (apply pow2_pos; lia).
      assert (Hbig : m1 * den * 2 ^ (e1 + L) <= num * 2 ^ (e + L)).
      { rewrite Ee. subst den1. clear - Hfloor HpeL. nia. }
      rewrite Ee' in Hbig.
      change (2 ^ 53) with (2 ^ 52 * 2) in Hk.
      assert (HdL : 0 < den * 2 ^ L) by (clear - Hden HpL; nia).
      assert (Hm1big : 2 ^ 52 * 2 <= m1 * (2 * 2 ^ (e1 - 1)))
        by (clear - Hnorm1 Hp1'; nia).
      assert (Hlow : 2 ^ 52 * 2 * (den * 2 ^ L)
                     <= m1 * den * (2 * 2 ^ (e1 - 1) * 2 ^ L)).
      { clear - HdL Hm1big. nia. }
      clear - Hk Hle Hbig Hlow HdL. nia.
    + assert (He0 : e <= 0) by lia.
      assert (Ee : 2 ^ L = 2 ^ (- e) * 2 ^ (e + L)).
      { rewrite <- Z.pow_add_r by lia. f_equal. lia. }
      assert (Hle' : num <= k * den * 2 ^ (- e)).
      { rewrite Ee in Hle. clear - Hle HpeL. nia. }
      assert (Ee1 : 2 ^ (- e) = 2 ^ n1 * 2 ^ (- e1)).
      { rewrite <- Z.pow_add_r by lia. f_equal. lia. }
      assert (Hle1 : num <= k * 2 ^ (- e1) * den1).
      { subst den1. rewrite Ee1 in Hle'. clear - Hle'. nia. }
      assert (Hk2 : m2 <= k * 2 ^ (- e1)).
      { destruct (Z.eq_dec m2 m1) as [E|N].
        - rewrite E, Em1. apply Z.div_le_upper_bound; [lia|].
          clear - Hle1. nia.
        - specialize (Hinex N).
          assert (num <> k * 2 ^ (- e1) * den1).
          { intros E. apply Hinex. rewrite E. apply Z.mod_mul. lia. }
          assert (m1 < k * 2 ^ (- e1)).
          { rewrite Em1. apply Z.div_lt_upper_bound; [lia|].
            clear - Hle1 H. nia. }
          lia. }
      assert (Hk3 : m3 * 2 ^ n2 <= m2).
      { rewrite Em3, Z.mul_comm. apply Z.mul_div_le. lia. }
      assert (E3 : 2 ^ (e3 + L) = 2 ^ n2 * 2 ^ (e1 + L)).
      { rewrite <- Z.pow_add_r by lia. f_equal. lia. }
      assert (EL : 2 ^ L = 2 ^ (- e1) * 2 ^ (e1 + L)).
      { rewrite <- Z.pow_add_r by lia. f_equal. lia. }
      assert (HpE1 : 0 < 2 ^ (e1 + L)) by (apply pow2_pos; lia).
      rewrite E3, EL. clear - Hk3 Hk2 HpE1. nia.
Qed.

End Rounding.

(** ** Division against an integer *)

Section Division.

Lemma new_location_exact (n : Z) : new_location n 0 = loc_Exact.
Proof. unfold new_location. now destruct (Z.even n). Qed.

(** The quotient of two finite floats, compared with an integer [k]:
    [x / y] is not below [k] when [k * y <= x], and not above [k] when
    [x <= k * y], the magnitudes being scaled by [2 ^ L]. *)
Lemma div_finite_bounds
    (sx sy : bool) (mx my : positive) (ex ey L : Z) :
  1074 <= L -> 0 <= ex - ey + L ->
  exists m3 e3,
    0 <= m3 /\ 0 <= e3 + L
    /\ (S754_finite sx mx ex / S754_finite sy my ey)%f64
       = assemble (xorb sx sy) m3 e3
    /\ (forall k, 0 <= k <= 2 ^ 53 ->
          k * Zpos my * 2 ^ L <= Zpos mx * 2 ^ (ex - ey + L) ->
          k * 2 ^ L <= m3 * 2 ^ (e3 + L))
    /\ (forall k, 0 <= k < 2 ^ 53 ->
          Zpos mx * 2 ^ (ex - ey + L) <= k * Zpos my * 2 ^ L ->
          m3 * 2 ^ (e3 + L) <= k * 2 ^ L).
Proof.
  intros HL Hexy.
  unfold F64.div, SFdiv, SFdiv_core_binary.
  cbn [Zdigits2].
  set (d1 := Zpos (digits2_pos mx)).
  set (d2 := Zpos (digits2_pos my)).
  set (e' := Z.min (fexp F64.prec F64.emax (d1 + ex - (d2 + ey))) (ex - ey)).
  set (sh := ex - ey - e').
  set (m' := match sh with
             | Z0 => Zpos mx
             | Zpos _ => Z.shiftl (Zpos mx) sh
             | Zneg _ => 0
             end).
  assert (Hsh : 0 <= sh) by (subst sh e'; lia).
  assert (Em' : m' = Zpos mx * 2 ^ sh).
  { subst m'. destruct sh as [|p|p]; [cbn; lia| |lia].
    now rewrite Z.shiftl_mul_pow2 by lia. }
  assert (Hpsh : 0 < 2 ^ sh) by now apply pow2_pos.
  assert (Hm' : 0 <= m') by (rewrite Em'; lia).
  destruct (Z.div_eucl m' (Zpos my)) as [q r] eqn:E.
  assert (Eq : q = m' / Zpos my) by (unfold Z.div; now rewrite E).
  assert (Er : r = m' mod Zpos my) by (unfold Z.modulo; now rewrite E).
  assert (He' : -1074 <= e' \/ e' = ex - ey).
  { subst e'. rewrite fexp_eq. lia. }
  assert (Hnorm : 0 < e' -> 2 ^ 52 <= q).
  { intros Hpos. rewrite Eq.
    apply Z.div_le_lower_bound; [lia|].
    pose proof (digits2_pos_bounds mx) as [Hlo1 _].
    pose proof (digits2_pos_bounds my) as [_ Hhi2].
    fold d1 in Hlo1. fold d2 in Hhi2.
    assert (Hd2 : 0 < d2) by (subst d2; lia).
    assert (Hd1 : 0 < d1) by (subst d1; lia).
    assert (Hs : 52 + d2 <= d1 - 1 + sh).
    { subst sh e'. rewrite fexp_eq in *. lia. }
    assert (2 ^ (52 + d2) <= 2 ^ (d1 - 1 + sh))
      by (apply Z.pow_le_mono_r; lia).
    rewrite !Z.pow_add_r in * by lia.
    rewrite Em'.
    assert (0 < 2 ^ 52) by (apply pow2_pos; lia).
    nia. }
  destruct (binary_round_aux_bounds (xorb sx sy) q e'
              (new_location (Zpos my) r) m' (Zpos my) L)
    as (m3 & e3 & Hm3 & He3 & Eres & Hlow & Hupp);
    try lia; trivial.
  { intros Hl Hr. apply Hl. rewrite Er, Hr. apply new_location_exact. }
  exists m3, e3.
  split; [exact Hm3|]. split; [lia|]. split; [exact Eres|].
  assert (Escale : m' * 2 ^ (e' + L) = Zpos mx * 2 ^ (ex - ey + L)).
  { rewrite Em', <- Z.mul_assoc, <- Z.pow_add_r by lia.
    do 2 f_equal. subst sh. lia. }
  rewrite Escale in Hlow, Hupp. auto.
Qed.

End Division.

(** ** Order and integer parts, scaled *)

Section Order.

Lemma valid_finite_inv (s : bool) (m : positive) (e : Z) :
  F64.valid (S754_finite s m e) = true ->
  fexp F64.prec F64.emax (Zpos (digits2_pos m) + e) = e /\ e <= 971.
Proof.
  unfold F64.valid, valid_binary, bounded, canonical_mantissa.
  intros H. apply andb_true_iff in H. destruct H as [Hc Hb].
  apply Z.eqb_eq in Hc. apply Z.leb_le in Hb. split; [exact Hc|].
  exact Hb.
Qed.

(** The comparison of two well-formed positive floats is the
    comparison of their values. *)
Lemma leb_scaled (ma mb : positive) (ea eb : Z) :
  F64.valid (S754_finite false ma ea) = true ->
  F64.valid (S754_finite false mb eb) = true ->
  F64.leb (S754_finite false ma ea) (S754_finite false mb eb) = true ->
  Zpos ma * 2 ^ (ea + 1074) <= Zpos mb * 2 ^ (eb + 1074).
Proof.
  intros Va Vb Hle.
  apply valid_finite_inv in Va, Vb.
  destruct Va as [Ca _], Vb as [Cb _]. rewrite fexp_eq in Ca, Cb.
  pose proof (digits2_pos_bounds ma) as [_ Hhi].
  pose proof (digits2_pos_bounds mb) as [Hlo _].
  set (da := Zpos (digits2_pos ma)) in *.
  set (db := Zpos (digits2_pos mb)) in *.
  unfold F64.leb, SFleb, SFcompare in Hle.
  destruct (Z.compare_spec ea eb) as [E|Hlt|Hgt]; try discriminate.
  - subst eb.
    assert (Zpos ma <= Zpos mb).
    { destruct (Pos.compare_cont Eq ma mb) eqn:Ec; try discriminate.
      - change (Pos.compare ma mb = Eq) in Ec.
        apply Pos.compare_eq in Ec. rewrite Ec. apply Z.le_refl.
      - assert (ma < mb)%positive by exact Ec. lia. }
    assert (0 < 2 ^ (ea + 1074)) by (apply pow2_pos; lia).
    nia.
  - assert (Edb : db = 53) by lia.
    assert (Hda : da <= 53) by lia.
    rewrite Edb in Hlo. change (2 ^ (53 - 1)) with (2 ^ 52) in Hlo.
    assert (Zpos ma < 2 ^ 53).
    { eapply Z.lt_le_trans; [exact Hhi|].
      apply Z.pow_le_mono_r; lia. }
    assert (Ee : 2 ^ (eb + 1074)
                 = 2 * 2 ^ (eb - ea - 1) * 2 ^ (ea + 1074)).
    { change 2 with (2 ^ 1) at 2. rewrite <- !Z.pow_add_r by lia.
      f_equal. lia. }
    assert (0 < 2 ^ (eb - ea - 1)) by (apply pow2_pos; lia).
    assert (0 < 2 ^ (ea + 1074)) by (apply pow2_pos; lia).
    rewrite Ee. change (2 ^ 53) with (2 ^ 52 * 2) in *.
    assert (Zpos ma <= Zpos mb * (2 * 2 ^ (eb - ea - 1))) by nia.
    nia.
Qed.

Lemma assemble_floor_ge (m3 e3 L k : Z) :
  0 <= m3 -> 0 <= L -> 0 <= e3 + L ->
  k * 2 ^ L <= m3 * 2 ^ (e3 + L) ->
  F64.is_finite (assemble false m3 e3) = true ->
  k <= F64.Zfloor (assemble false m3 e3).
Proof.
  intros Hm HL HeL Hk Hfin.
  assert (HpL : 0 < 2 ^ L) by now apply pow2_pos.
  destruct m3 as [|p|p]; [cbn in *; nia| |lia].
  unfold assemble in *.
  destruct (e3 <=? F64.emax - F64.prec); [|discriminate].
  unfold F64.Zfloor. cbn [F64.exponent F64.signed_mantissa cond_Zopp].
  destruct e3 as [|q|q].
  - rewrite Z.add_0_l in Hk. cbn. nia.
  - rewrite Z.pow_add_r in Hk by lia.
    assert (0 < 2 ^ Zpos q) by (apply pow2_pos; lia). nia.
  - apply Z.div_le_lower_bound; [apply pow2_pos; lia|].
    assert (E : 2 ^ L = 2 ^ Zpos q * 2 ^ (Zneg q + L)).
    { rewrite <- Z.pow_add_r by lia. f_equal. lia. }
    assert (0 < 2 ^ (Zneg q + L)) by (apply pow2_pos; lia).
    rewrite E in Hk. nia.
Qed.

Lemma assemble_ceil_le (m3 e3 L k : Z) :
  0 <= m3 -> 0 <= L -> 0 <= e3 + L ->
  m3 * 2 ^ (e3 + L) <= k * 2 ^ L ->
  F64.is_finite (assemble false m3 e3) = true ->
  F64.Zceil (assemble false m3 e3) <= k.
Proof.
  intros Hm HL HeL Hk Hfin.
  assert (HpL : 0 < 2 ^ L) by now apply pow2_pos.
  destruct m3 as [|p|p]; [cbn in *; nia| |lia].
  unfold assemble in *.
  destruct (e3 <=? F64.emax - F64.prec); [|discriminate].
  unfold F64.Zceil. cbn [F64.exponent F64.signed_mantissa cond_Zopp].
  destruct e3 as [|q|q].
  - rewrite Z.add_0_l in Hk. cbn. nia.
  - rewrite Z.pow_add_r in Hk by lia.
    assert (0 < 2 ^ Zpos q) by (apply pow2_pos; lia). nia.
  - assert (E : 2 ^ L = 2 ^ Zpos q * 2 ^ (Zneg q + L)).
    { rewrite <- Z.pow_add_r by lia. f_equal. lia. }
    assert (0 < 2 ^ (Zneg q + L)) by (apply pow2_pos; lia).
    assert (0 < 2 ^ Zpos q) by (apply pow2_pos; lia).
    rewrite E in Hk.
    assert (Hp : Zpos p <= k * 2 ^ Zpos q) by nia.
    assert (- k <= - Zpos p / 2 ^ Zpos q).
    { apply Z.div_le_lower_bound; [lia|]. nia. }
    lia.
Qed.

(** A query time at or after the duration looks up the last sample:
    the integer part of [tau / dt] is at least [ceil(duration / dt) - 1]. *)
Lemma floor_quotient_ge_count (duration tau dt : float) :
  F64.valid duration = true -> F64.valid tau = true ->
  F64.valid dt = true ->
  F64.ltb F64.zero dt = true ->
  F64.ltb F64.zero duration = true ->
  F64.leb duration tau = true ->
  F64.is_finite (duration / dt)%f64 = true ->
  F64.is_finite (tau / dt)%f64 = true ->
  1 <= F64.Zceil (duration / dt)%f64 <= 2 ^ 53 ->
  F64.Zceil (duration / dt)%f64 - 1 <= F64.Zfloor (tau / dt)%f64.
Proof.
  intros Vd Vt Vdt Pdt Pd Hle Fd Ft HN.
  destruct (positive_inv _ Pdt) as [->|(mt & et & ->)].
  { destruct duration as [| | |[] ? ?]; try discriminate; cbn in HN; lia. }
  destruct (positive_inv _ Pd) as [->|(md & ed & ->)]; [discriminate|].
  destruct tau as [st|[]| |[] mq eq]; try discriminate.
  pose proof (leb_scaled _ _ _ _ Vd Vt Hle) as Hord.
  apply valid_finite_inv in Vd, Vt, Vdt.
  destruct Vd as [Cd Bd], Vt as [Ct Bt], Vdt as [Cdt Bdt].
  rewrite fexp_eq in Cd, Ct, Cdt.
  set (L := 2200).
  destruct (div_finite_bounds false false md mt ed et L)
    as (m3 & e3 & Hm3 & He3 & Eres & _ & Hupp); try (subst L; lia).
  destruct (div_finite_bounds false false mq mt eq et L)
    as (m3' & e3' & Hm3' & He3' & Eres' & Hlow' & _); try (subst L; lia).
  cbn [xorb] in Eres, Eres'.
  rewrite Eres in Fd, HN |- *. rewrite Eres' in Ft |- *.
  set (k := F64.Zceil (assemble false m3 e3) - 1) in *.
  apply (assemble_floor_ge m3' e3' L k); trivial; try (subst L; lia).
  apply Hlow'; [lia|].
  destruct (Z_le_gt_dec (Zpos md * 2 ^ (ed - et + L)) (k * Zpos mt * 2 ^ L))
    as [Hcontra|Hgt].
  { exfalso.
    pose proof (assemble_ceil_le m3 e3 L k Hm3 ltac:(subst L; lia) He3
                  (Hupp k ltac:(lia) Hcontra) Fd).
    lia. }
  assert (Es : forall e, -1074 <= e ->
                 2 ^ (e - et + L) = 2 ^ (e + 1074) * 2 ^ (L - et - 1074)).
  { intros e He. rewrite <- Z.pow_add_r by (subst L; lia).
    f_equal. lia. }
  assert (0 < 2 ^ (L - et - 1074)) by (apply pow2_pos; subst L; lia).
  rewrite (Es eq) by lia. rewrite (Es ed) in Hgt by lia.
  nia.
Qed.

End Order.

(** ** The loop *)

Section LoopFacts.

Variable self : PIDResponseGraph.
Variable dt : float.

Lemma for_range_succ (n : nat) (s : Locals.t) :
  for_range self dt (S n) s = loop_body self dt (for_range self dt n s).
Proof.
  revert s.
  induction n as [|n IH]; intros s; [reflexivity|].
  change (for_range self dt (S (S n)) s)
    with (for_range self dt (S n) (loop_body self dt s)).
  rewrite IH. reflexivity.
Qed.

Lemma values_for_range (n : nat) (s : Locals.t) :
  Locals.values (for_range self dt n s)
  = Locals.values s
    ++ map (fun k => Locals.x (for_range self dt (S k) s)) (seq 0 n).
Proof.
  induction n as [|n IH].
  - simpl. now rewrite app_nil_r.
  - rewrite seq_S, map_app, app_assoc, <- IH.
    cbn [map Nat.add]. now rewrite !for_range_succ.
Qed.

Lemma errors_for_range (n : nat) (s : Locals.t) :
  Locals.errors (for_range self dt n s)
  = Locals.errors s
    ++ map (fun k => (_setpoint self - Locals.x (for_range self dt k s))%f64)
         (seq 0 n).
Proof.
  induction n as [|n IH].
  - simpl. now rewrite app_nil_r.
  - rewrite seq_S, map_app, app_assoc, <- IH.
    cbn [map Nat.add]. now rewrite for_range_succ.
Qed.

Lemma integrals_for_range (n : nat) (s : Locals.t) :
  Locals.integrals (for_range self dt n s)
  = Locals.integrals s
    ++ map (fun k => Locals.integral (for_range self dt (S k) s)) (seq 0 n).
Proof.
  induction n as [|n IH].
  - simpl. now rewrite app_nil_r.
  - rewrite seq_S, map_app, app_assoc, <- IH.
    cbn [map Nat.add]. now rewrite !for_range_succ.
Qed.

Lemma nth_error_map_seq {A : Type} (f : nat -> A) (n i : nat) :
  (i < n)%nat -> nth_error (map f (seq 0 n)) i = Some (f i).
Proof.
  intros Hi.
  rewrite nth_error_map, nth_error_seq.
  destruct (Nat.ltb_spec i n); [reflexivity | lia].
Qed.

End LoopFacts.

(** ** Shape of a successful run *)

Lemma arange_shape (start stop step : float) (ts : list float) :
  np.arange start stop step = Ok ts ->
  ts = map (np.arange_item start step) (seq 0 (length ts)).
Proof.
  unfold np.arange.
  destruct (np._calc_length start stop step) as [len|e];
    [|destruct e; discriminate].
  destruct (len <=? 0); [intros H; injection H as <-; reflexivity|].
  destruct (np.intp_max <? 8 * len); [discriminate|].
  destruct (np.address_space <=? 8 * len); [discriminate|].
  intros H. injection H as <-.
  now rewrite length_map, length_seq.
Qed.

Lemma simulate_inv (self self' : PIDResponseGraph) (duration dt : float) :
  simulate_pid_response self duration dt = Ok self' ->
  exists n : nat,
    np.arange F64.zero duration dt = Ok (_t self')
    /\ _t self' = map (np.arange_item F64.zero dt) (seq 0 n)
    /\ _values self' = Locals.values (locals_at self dt n)
    /\ _errors self' = Locals.errors (locals_at self dt n)
    /\ _integrals self' = Locals.integrals (locals_at self dt n)
    /\ _setpoint self' = _setpoint self
    /\ _Kp self' = _Kp self /\ _Ki self' = _Ki self /\ _Kd self' = _Kd self.
Proof.
  unfold simulate_pid_response, bind.
  destruct (np.arange F64.zero duration dt) as [ts|e] eqn:E; [|discriminate].
  intros H. injection H as <-. exists (length ts). cbn.
  unfold locals_at. pose proof (arange_shape _ _ _ _ E). tauto.
Qed.

Lemma simulate_of_arange
    (self : PIDResponseGraph) (duration dt : float) (ts : list float) :
  np.arange F64.zero duration dt = Ok ts ->
  exists self',
    simulate_pid_response self duration dt = Ok self' /\ _t self' = ts.
Proof.
  intros H. unfold simulate_pid_response, bind. rewrite H.
  eexists. split; reflexivity.
Qed.

Lemma simulate_fails (self : PIDResponseGraph) (duration dt : float) (e : exn) :
  np.arange F64.zero duration dt = Raise e ->
  simulate_pid_response self duration dt = Raise e.
Proof.
  intros H. unfold simulate_pid_response, bind. now rewrite H.
Qed.

Lemma simulate_lengths (self self' : PIDResponseGraph) (duration dt : float) :
  simulate_pid_response self duration dt = Ok self' ->
  length (_values self') = length (_t self')
  /\ length (_errors self') = length (_t self')
  /\ length (_integrals self') = length (_t self').
Proof.
  intros H. destruct (simulate_inv _ _ _ _ H) as (n & _ & Ht & Hv & He & Hi & _).
  rewrite Ht, Hv, He, Hi. unfold locals_at.
  rewrite values_for_range, errors_for_range, integrals_for_range.
  cbn. now rewrite !length_map, !length_seq.
Qed.

(** ** The number of samples *)

Lemma eqb_zero_r (a : float) : (a == F64.zero)%f64 = F64.is_zero a.
Proof. destruct a as [[]|[]| |[] m e]; reflexivity. Qed.

Lemma calc_length_from_zero (duration dt : float) :
  np._calc_length F64.zero duration dt
  = if F64.is_zero dt then Raise ZeroDivisionError
    else
      len <- np._arange_safe_ceil_to_intp (duration / dt)%f64 ;;
      if F64.is_zero (duration / dt)%f64 && negb (F64.is_zero duration)
      then Ok (if F64.signbit (duration / dt)%f64 then 0 else 1)
      else Ok len.
Proof.
  unfold np._calc_length. cbv zeta. now rewrite sub_zero_r, !eqb_zero_r.
Qed.

Lemma ceil_in_range (duration dt : float) :
  count_in_range duration dt = true ->
  np._arange_safe_ceil_to_intp (duration / dt)%f64
  = Ok (np.to_intp (F64.Zceil (duration / dt)%f64)).
Proof.
  unfold count_in_range, np._arange_safe_ceil_to_intp. cbv zeta.
  destruct (duration / dt)%f64 as [s|s| |s m e]; try discriminate;
    cbn [F64.is_finite andb]; intros ->; reflexivity.
Qed.

Lemma ceil_out_of_range (duration dt : float) :
  count_in_range duration dt = false ->
  np._arange_safe_ceil_to_intp (duration / dt)%f64 = Raise ValueError
  \/ np._arange_safe_ceil_to_intp (duration / dt)%f64 = Raise OverflowError.
Proof.
  unfold count_in_range, np._arange_safe_ceil_to_intp. cbv zeta.
  destruct (duration / dt)%f64 as [s|s| |s m e]; auto;
    cbn [F64.is_finite andb]; intros ->; auto.
Qed.

Lemma count_fits_inv (duration dt : float) :
  count_fits duration dt = true ->
  F64.is_finite (duration / dt)%f64 = true
  /\ np.intp_min <= F64.Zceil (duration / dt)%f64 <= np.intp_max.
Proof.
  unfold count_fits. cbv zeta. intros H.
  apply andb_true_iff in H. destruct H as [H H3].
  apply andb_true_iff in H. destruct H as [H1 H2].
  apply Z.leb_le in H2, H3. auto.
Qed.

Lemma count_in_range_inv (duration dt : float) :
  count_in_range duration dt = true ->
  F64.is_finite (duration / dt)%f64 = true
  /\ np.intp_min <= F64.Zceil (duration / dt)%f64 <= np.intp_max + 1.
Proof.
  unfold count_in_range. cbv zeta. intros H.
  apply andb_true_iff in H. destruct H as [H H3].
  apply andb_true_iff in H. destruct H as [H1 H2].
  apply Z.leb_le in H2, H3. auto.
Qed.

Lemma count_in_range_intro (duration dt : float) :
  F64.is_finite (duration / dt)%f64 = true ->
  np.intp_min <= F64.Zceil (duration / dt)%f64 <= np.intp_max + 1 ->
  count_in_range duration dt = true.
Proof.
  unfold count_in_range. cbv zeta. intros -> [H2 H3].
  apply Z.leb_le in H2, H3. now rewrite H2, H3.
Qed.

(** ** What [np.arange(0, duration, dt)] returns *)

Lemma arange_zero_step (duration dt : float) :
  F64.is_zero dt = true ->
  np.arange F64.zero duration dt = Raise ZeroDivisionError.
Proof.
  intros Hz. unfold np.arange. now rewrite calc_length_from_zero, Hz.
Qed.

Lemma arange_out_of_range (duration dt : float) :
  F64.is_zero dt = false ->
  count_in_range duration dt = false ->
  np.arange F64.zero duration dt = Raise ValueError.
Proof.
  intros Hz Hr. unfold np.arange. rewrite calc_length_from_zero, Hz.
  destruct (ceil_out_of_range _ _ Hr) as [-> | ->]; reflexivity.
Qed.

Lemma arange_in_range (duration dt : float) :
  F64.is_zero dt = false ->
  count_in_range duration dt = true ->
  np.arange F64.zero duration dt
  = let q := (duration / dt)%f64 in
    let len :=
      if F64.is_zero q && negb (F64.is_zero duration)
      then (if F64.signbit q then 0 else 1)
      else np.to_intp (F64.Zceil q) in
    if len <=? 0 then Ok []
    else if np.intp_max <? 8 * len then Raise ValueError
    else if np.address_space <=? 8 * len then Raise MemoryError
    else Ok (map (np.arange_item F64.zero dt) (seq 0 (Z.to_nat len))).
Proof.
  intros Hz Hr. unfold np.arange.
  rewrite calc_length_from_zero, Hz, (ceil_in_range _ _ Hr).
  cbn [bind]. cbv zeta.
  destruct (F64.is_zero (duration / dt)%f64 && negb (F64.is_zero duration));
    reflexivity.
Qed.

Lemma arange_Ok_inv (duration dt : float) (ts : list float) :
  np.arange F64.zero duration dt = Ok ts ->
  F64.is_zero dt = false /\ count_in_range duration dt = true.
Proof.
  intros H.
  destruct (F64.is_zero dt) eqn:Hz.
  { rewrite (arange_zero_step _ _ Hz) in H. discriminate. }
  destruct (count_in_range duration dt) eqn:Hr; [auto|].
  rewrite (arange_out_of_range _ _ Hz Hr) in H. discriminate.
Qed.

(** An array that is returned with [len] elements. *)
Lemma arange_allocated (dt : float) (len : Z) (ts : list float) :
  (if len <=? 0 then Ok []
   else if np.intp_max <? 8 * len then Raise ValueError
   else if np.address_space <=? 8 * len then Raise MemoryError
   else Ok (map (np.arange_item F64.zero dt) (seq 0 (Z.to_nat len)))) = Ok ts ->
  length ts = Z.to_nat len /\ 8 * Z.of_nat (length ts) < np.address_space.
Proof.
  destruct (Z.leb_spec len 0) as [Hl|Hl].
  { intros H. injection H as <-. cbn [length].
    split; [lia | reflexivity]. }
  destruct (np.intp_max <? 8 * len); [discriminate|].
  destruct (Z.leb_spec np.address_space (8 * len)) as [Ha|Ha]; [discriminate|].
  intros H. injection H as <-.
  rewrite length_map, length_seq. split; [reflexivity | lia].
Qed.

(** The length of the array that is returned, in each of the three
    cases of the length computation. *)
Lemma arange_length (duration dt : float) (ts : list float) :
  np.arange F64.zero duration dt = Ok ts ->
  let q := (duration / dt)%f64 in
  length ts
  = if F64.is_zero q && negb (F64.is_zero duration)
    then (if F64.signbit q then 0%nat else 1%nat)
    else if F64.Zceil q <=? np.intp_max then Z.to_nat (F64.Zceil q)
    else 0%nat.
Proof.
  intros H. destruct (arange_Ok_inv _ _ _ H) as [Hz Hr].
  rewrite (arange_in_range _ _ Hz Hr) in H. cbv zeta in H |- *.
  apply arange_allocated in H. destruct H as [-> _].
  destruct (F64.is_zero (duration / dt)%f64 && negb (F64.is_zero duration)).
  - now destruct (F64.signbit (duration / dt)%f64).
  - unfold np.to_intp.
    now destruct (F64.Zceil (duration / dt)%f64 <=? np.intp_max).
Qed.

(** With two samples or more the length is the ceiling of the float
    quotient. *)
Lemma arange_count_ge2 (duration dt : float) (ts : list float) :
  np.arange F64.zero duration dt = Ok ts ->
  (2 <= length ts)%nat ->
  F64.is_finite (duration / dt)%f64 = true
  /\ length ts = Z.to_nat (F64.Zceil (duration / dt)%f64).
Proof.
  intros H Hn. destruct (arange_Ok_inv _ _ _ H) as [Hz Hr].
  split; [now apply count_in_range_inv in Hr|].
  pose proof (arange_length _ _ _ H) as L. cbv zeta in L.
  destruct (F64.is_zero (duration / dt)%f64 && negb (F64.is_zero duration)).
  - destruct (F64.signbit (duration / dt)%f64); lia.
  - destruct (F64.Zceil (duration / dt)%f64 <=? np.intp_max); [assumption|lia].
Qed.

(** The array is allocated when the length is small enough. *)
Lemma arange_returns (duration dt : float) :
  F64.is_zero dt = false ->
  count_in_range duration dt = true ->
  8 * F64.Zceil (duration / dt)%f64 < np.address_space ->
  exists ts, np.arange F64.zero duration dt = Ok ts.
Proof.
  intros Hz Hr Hm. rewrite (arange_in_range _ _ Hz Hr). cbv zeta.
  assert (Hone : exists ts,
    (if 1 <=? 0 then Ok []
     else if np.intp_max <? 8 * 1 then Raise ValueError
     else if np.address_space <=? 8 * 1 then Raise MemoryError
     else Ok (map (np.arange_item F64.zero dt) (seq 0 (Z.to_nat 1)))) = Ok ts)
    by (eexists; reflexivity).
  destruct (F64.is_zero (duration / dt)%f64 && negb (F64.is_zero duration)).
  { destruct (F64.signbit (duration / dt)%f64); [eexists; reflexivity|].
    exact Hone. }
  unfold np.to_intp.
  assert (Hs : 0 < np.address_space <= np.intp_max)
    by (split; [reflexivity | vm_compute; discriminate]).
  destruct (Z.leb_spec (F64.Zceil (duration / dt)%f64) np.intp_max) as [_|Hb];
    [|lia].
  set (n := F64.Zceil (duration / dt)%f64) in *.
  destruct (n <=? 0); [eexists; reflexivity|].
  destruct (Z.ltb_spec np.intp_max (8 * n)) as [Hb|_]; [lia|].
  destruct (Z.leb_spec np.address_space (8 * n)) as [Hb|_]; [lia|].
  eexists; reflexivity.
Qed.

(** A quotient of operands of opposite signs gives no sample. *)
Lemma arange_empty (duration dt : float) :
  F64.is_zero dt = false ->
  F64.is_finite (duration / dt)%f64 = true ->
  np.intp_min <= F64.Zceil (duration / dt)%f64 <= 0 ->
  (F64.is_zero (duration / dt)%f64 = true ->
   F64.is_zero duration = true \/ F64.signbit (duration / dt)%f64 = true) ->
  np.arange F64.zero duration dt = Ok [].
Proof.
  intros Hz Hfin [Hlo Hhi] Hs.
  assert (Hmax : 0 < np.intp_max) by reflexivity.
  assert (Hr : count_in_range duration dt = true).
  { apply count_in_range_intro; [assumption|]. lia. }
  rewrite (arange_in_range _ _ Hz Hr). cbv zeta.
  destruct (F64.is_zero (duration / dt)%f64 && negb (F64.is_zero duration))
    eqn:Hu.
  - apply andb_true_iff in Hu. destruct Hu as [Hq Hd].
    destruct (Hs Hq) as [E | ->]; [|reflexivity].
    rewrite E in Hd. discriminate.
  - unfold np.to_intp.
    destruct (Z.leb_spec (F64.Zceil (duration / dt)%f64) np.intp_max) as [_|Hb];
      [|lia].
    destruct (Z.leb_spec (F64.Zceil (duration / dt)%f64) 0); [reflexivity|lia].
Qed.

Lemma quotient_nonpositive (duration dt : float) :
  F64.ltb F64.zero dt = true ->
  F64.leb duration F64.zero = true ->
  F64.is_finite (duration / dt)%f64 = true ->
  F64.Zceil (duration / dt)%f64 <= 0
  /\ (F64.is_zero (duration / dt)%f64 = true ->
      F64.is_zero duration = true \/ F64.signbit (duration / dt)%f64 = true).
Proof.
  intros Hdt Hdur Hf.
  destruct (positive_inv _ Hdt) as [->|(m & e & ->)];
    destruct (nonpositive_inv _ Hdur) as [[s ->]|[->|(m' & e' & ->)]];
    try discriminate; try (split; [reflexivity | auto]).
  destruct (div_finite_cases true false m' m e' e) as [E|[E|(m1 & e1 & E)]];
    cbn [xorb] in E; rewrite E in Hf |- *; try discriminate.
  - split; [reflexivity | auto].
  - split; [apply Zceil_negative | discriminate].
Qed.

Lemma positive_step_nonzero (dt : float) :
  F64.ltb F64.zero dt = true -> F64.is_zero dt = false.
Proof.
  intros H. destruct (positive_inv _ H) as [->|(m & e & ->)]; reflexivity.
Qed.

(** A positive step and a non-positive duration give no sample. *)
Lemma arange_nonpositive (duration dt : float) :
  F64.ltb F64.zero dt = true ->
  F64.leb duration F64.zero = true ->
  F64.is_finite (duration / dt)%f64 = true ->
  np.intp_min <= F64.Zceil (duration / dt)%f64 ->
  np.arange F64.zero duration dt = Ok [].
Proof.
  intros Hdt Hdur Hf Hlo.
  destruct (quotient_nonpositive _ _ Hdt Hdur Hf) as [Hhi Hs].
  apply arange_empty; auto using positive_step_nonzero.
Qed.

(** ** The number of samples of a run *)

Lemma simulate_times (self self' : PIDResponseGraph) (duration dt : float) :
  simulate_pid_response self duration dt = Ok self' ->
  np.arange F64.zero duration dt = Ok (_t self').
Proof.
  intros H. now destruct (simulate_inv _ _ _ _ H) as (n & Ha & _).
Qed.

Lemma simulate_count (self self' : PIDResponseGraph) (duration dt : float) :
  simulate_pid_response self duration dt = Ok self' ->
  length (_t self')
  = match np.arange F64.zero duration dt with
    | Ok ts => length ts
    | Raise _ => O
    end.
Proof.
  intros H. now rewrite (simulate_times _ _ _ _ H).
Qed.

Lemma simulate_step_nonzero
    (self self' : PIDResponseGraph) (duration dt : float) :
  simulate_pid_response self duration dt = Ok self' ->
  F64.is_zero dt = false.
Proof.
  intros H. apply simulate_times in H. now apply arange_Ok_inv in H.
Qed.

Lemma simulate_count_ge2 (self self' : PIDResponseGraph) (duration dt : float) :
  simulate_pid_response self duration dt = Ok self' ->
  (2 <= length (_t self'))%nat ->
  F64.is_finite (duration / dt)%f64 = true
  /\ length (_t self') = Z.to_nat (F64.Zceil (duration / dt)%f64).
Proof.
  intros H. apply simulate_times in H. now apply arange_count_ge2.
Qed.

Lemma simulate_empty (self : PIDResponseGraph) (duration dt : float) :
  np.arange F64.zero duration dt = Ok [] ->
  exists self',
    simulate_pid_response self duration dt = Ok self'
    /\ _t self' = [] /\ _values self' = []
    /\ _errors self' = [] /\ _integrals self' = [].
Proof.
  intros H. unfold simulate_pid_response, bind. rewrite H.
  eexists. split; [reflexivity|]. cbn. auto.
Qed.

(** ** The sample times *)

Lemma arange_item_time (dt : float) (i : nat) :
  F64.is_finite dt = true -> F64.valid dt = true ->
  F64.ltb F64.zero dt = true ->
  (np.arange_item F64.zero dt i == F64.of_Z (Z.of_nat i) * dt)%f64 = true.
Proof.
  intros Hfin Hv Hpos.
  destruct (positive_inv _ Hpos) as [->|(m & e & ->)]; [discriminate|].
  destruct i as [|[|i]].
  - reflexivity.
  - cbn [np.arange_item]. rewrite add_zero_l by reflexivity.
    change (F64.of_Z (Z.of_nat 1)) with F64.one.
    rewrite mul_one_l by assumption. now apply eqb_refl.
  - cbn [np.arange_item]. cbv zeta.
    rewrite sub_zero_r, (add_zero_l (S754_finite false m e)) by reflexivity.
    set (k := Z.of_nat (S (S i))).
    assert (Hk : 0 <= k) by lia.
    destruct (of_Z_nonneg_cases k Hk) as [E|[E|(m1 & e1 & E)]]; rewrite E;
      try reflexivity.
    destruct (mul_finite_cases false false m1 m e1 e) as [E'|[E'|(m2 & e2 & E')]];
      cbn [xorb] in E'; rewrite E'; try reflexivity.
    rewrite add_zero_l by reflexivity. now apply eqb_refl.
Qed.

(** ** C1: what one step computes and what it records *)

Lemma recorded_at (self self' : PIDResponseGraph) (duration dt : float) (i : nat) :
  simulate_pid_response self duration dt = Ok self' ->
  (i < length (_t self'))%nat ->
  nth_error (_values self') i = Some (Locals.x (locals_at self dt (S i)))
  /\ nth_error (_errors self') i
     = Some (_setpoint self - Locals.x (locals_at self dt i))%f64
  /\ nth_error (_integrals self') i
     = Some (Locals.integral (locals_at self dt (S i))).
Proof.
  intros H Hi.
  destruct (simulate_inv _ _ _ _ H) as (n & _ & Ht & Hv & He & Hint & _).
  rewrite Ht, length_map, length_seq in Hi.
  rewrite Hv, He, Hint. unfold locals_at.
  rewrite values_for_range, errors_for_range, integrals_for_range.
  cbn [initial_locals Locals.values Locals.errors Locals.integrals app].
  now rewrite !nth_error_map_seq by assumption.
Qed.

(** C1.  In a run that returns, step [i] computes, from the locals [s] on
    entry: error = setpoint - x; integral += error * dt; derivative =
    (error - previous_error) / dt; u = Kp*error + Ki*integral +
    Kd*derivative; then dx = v, dv = -x - 0.1*v + u, x += dx*dt,
    v += dv*dt.  The recorded value[i] is x after this update, error[i]
    and integral[i] are the values computed before it, and previous_error
    holds this step's error only for the next step. *)
Theorem C1_step_order
    (self self' : PIDResponseGraph) (duration dt : float) (i : nat) :
  simulate_pid_response self duration dt = Ok self' ->
  (i < length (_t self'))%nat ->
  let s := locals_at self dt i in
  let s' := locals_at self dt (S i) in
  let error := (_setpoint self - Locals.x s)%f64 in
  let integral := (Locals.integral s + error * dt)%f64 in
  let derivative := ((error - Locals.previous_error s) / dt)%f64 in
  let u := (_Kp self * error + _Ki self * integral + _Kd self * derivative)%f64 in
  let dx := Locals.v s in
  let dv := (- Locals.x s - F64.tenth * Locals.v s + u)%f64 in
  Locals.x s' = (Locals.x s + dx * dt)%f64
  /\ Locals.v s' = (Locals.v s + dv * dt)%f64
  /\ Locals.integral s' = integral
  /\ Locals.previous_error s' = error
  /\ nth_error (_values self') i = Some (Locals.x s + dx * dt)%f64
  /\ nth_error (_errors self') i = Some error
  /\ nth_error (_integrals self') i = Some integral.
Proof.
  intros H Hi s s' error integral derivative u dx dv.
  destruct (recorded_at _ _ _ _ _ H Hi) as (Hv & He & Hint).
  assert (Hs' : s' = loop_body self dt s)
    by (subst s s'; unfold locals_at; apply for_range_succ).
  rewrite Hv, He, Hint. fold s s'. rewrite Hs'.
  repeat split; reflexivity.
Qed.

Lemma C1_step_order_witness :
  exists self',
    simulate_pid_response (fresh F64.one F64.one F64.zero F64.zero)
      F64.two F64.one = Ok self'
    /\ nth_error (_values self') 1 = Some F64.one
    /\ nth_error (_errors self') 1 = Some F64.one
    /\ nth_error (_integrals self') 1 = Some F64.two.
Proof.
  eexists. split; [reflexivity|].
  pose proof
    (C1_step_order (fresh F64.one F64.one F64.zero F64.zero) _
       F64.two F64.one 1 eq_refl) as H.
  cbn [length _t] in H. specialize (H (Nat.lt_succ_diag_r 1)).
  cbv zeta in H.
  destruct H as (_ & _ & _ & _ & Hv & He & Hi).
  rewrite Hv, He, Hi. repeat split; vm_compute; reflexivity.
Defined.

(** ** C6: the integral is a plain running sum *)

Lemma firstn_seq_le (a k n : nat) :
  (k <= n)%nat -> firstn k (seq a n) = seq a k.
Proof.
  revert a n. induction k as [|k IH]; intros a n Hk; [reflexivity|].
  destruct n as [|n]; [lia|]. cbn. f_equal. apply IH. lia.
Qed.

Lemma running_sum_errors (self : PIDResponseGraph) (dt : float) (k : nat) :
  running_sum dt
    (map (fun j => (_setpoint self - Locals.x (locals_at self dt j))%f64)
       (seq 0 k))
  = Locals.integral (locals_at self dt k).
Proof.
  unfold running_sum.
  induction k as [|k IH]; [reflexivity|].
  rewrite seq_S, map_app, fold_left_app, IH.
  cbn [map fold_left Nat.add]. unfold locals_at.
  now rewrite for_range_succ.
Qed.

(** C6.  In a run that returns, integral[i] is the sum of error[j] * dt
    for j = 0 .. i, accumulated from the left starting at zero, and
    nothing else; and the velocity update of step i adds
    (-x - 0.1*v + u) * dt with u = Kp*error + Ki*integral + Kd*derivative
    itself, computed from that sum: neither the integral nor the control
    output is clamped or saturated. *)
Theorem C6_integral_running_sum
    (self self' : PIDResponseGraph) (duration dt : float) (i : nat) :
  simulate_pid_response self duration dt = Ok self' ->
  (i < length (_t self'))%nat ->
  let s := locals_at self dt i in
  let error := (_setpoint self - Locals.x s)%f64 in
  let integral := running_sum dt (firstn (S i) (_errors self')) in
  let derivative := ((error - Locals.previous_error s) / dt)%f64 in
  let u := (_Kp self * error + _Ki self * integral + _Kd self * derivative)%f64 in
  nth_error (_integrals self') i = Some integral
  /\ Locals.v (locals_at self dt (S i))
     = (Locals.v s + (- Locals.x s - F64.tenth * Locals.v s + u) * dt)%f64.
Proof.
  intros H Hi s error integral derivative u.
  destruct (recorded_at _ _ _ _ _ H Hi) as (_ & _ & Hint).
  destruct (simulate_inv _ _ _ _ H) as (n & _ & Ht & _ & He & _).
  rewrite Ht, length_map, length_seq in Hi.
  assert (Hsum : integral = Locals.integral (locals_at self dt (S i))).
  { subst integral. rewrite He. unfold locals_at at 1.
    rewrite errors_for_range.
    cbn [initial_locals Locals.errors app].
    rewrite firstn_map, firstn_seq_le by lia.
    apply running_sum_errors. }
  split.
  - now rewrite Hint, Hsum.
  - subst u. rewrite Hsum. subst s error derivative. unfold locals_at.
    now rewrite for_range_succ.
Qed.

Lemma C6_integral_running_sum_witness :
  exists self',
    simulate_pid_response (fresh F64.one F64.one F64.zero F64.zero)
      F64.two F64.one = Ok self'
    /\ nth_error (_integrals self') 1
       = Some (running_sum F64.one (firstn 2 (_errors self'))).
Proof.
  eexists. split; [reflexivity|].
  exact (proj1
    (C6_integral_running_sum (fresh F64.one F64.one F64.zero F64.zero) _
       F64.two F64.one 1 eq_refl (Nat.lt_succ_diag_r 1))).
Defined.

(** ** C7: a run depends on its arguments only *)

Lemma for_range_ext (self1 self2 : PIDResponseGraph) (dt : float) :
  _setpoint self1 = _setpoint self2 ->
  _Kp self1 = _Kp self2 -> _Ki self1 = _Ki self2 -> _Kd self1 = _Kd self2 ->
  forall (n : nat) (s : Locals.t),
    for_range self1 dt n s = for_range self2 dt n s.
Proof.
  intros Hs Hp Hi Hd n.
  induction n as [|n IH]; intros s; [reflexivity|].
  cbn [for_range]. rewrite IH. f_equal.
  unfold loop_body, control. now rewrite Hs, Hp, Hi, Hd.
Qed.



Lemma simulate_trace_ext (a b : PIDResponseGraph) (duration dt : float) :
  _setpoint a = _setpoint b ->
  _Kp a = _Kp b -> _Ki a = _Ki b -> _Kd a = _Kd b ->
  map_result trace_of (simulate_pid_response a duration dt)
  = map_result trace_of (simulate_pid_response b duration dt).
Proof.
  intros Hs Hp Hi Hd.
  unfold simulate_pid_response, bind.
  destruct (np.arange F64.zero duration dt) as [ts|e]; [|reflexivity].
  cbn. unfold trace_of. cbn.
  now rewrite (for_range_ext a b dt Hs Hp Hi Hd).
Qed.

(** ** C4: the literal scenario *)

(** C4.  With dt = 1.0, duration = 2.0, setpoint = 1, Kp = 1, Ki = 0 and
    Kd = 0 the run returns exactly t = [0, 1], value = [0, 1],
    error = [1, 1], integral = [1, 2]; step 0 leaves x at 0 with v = 1,
    step 1 yields x = 1 and v = 1.9 (the double nearest to 19/10). *)
Theorem C4_literal_scenario (self : PIDResponseGraph) :
  _setpoint self = F64.one ->
  _Kp self = F64.one -> _Ki self = F64.zero -> _Kd self = F64.zero ->
  map_result trace_of (simulate_pid_response self F64.two F64.one)
  = Ok (mkTrace [F64.zero; F64.one] [F64.zero; F64.one]
          [F64.one; F64.one] [F64.one; F64.two])
  /\ Locals.x (locals_at self F64.one 1) = F64.zero
  /\ Locals.v (locals_at self F64.one 1) = F64.one
  /\ Locals.x (locals_at self F64.one 2) = F64.one
  /\ Locals.v (locals_at self F64.one 2) = (F64.of_Z 19 / F64.of_Z 10)%f64.
Proof.
  intros Hs Hp Hi Hd.
  set (ref := fresh F64.one F64.one F64.zero F64.zero).
  assert (E : forall n, locals_at self F64.one n = locals_at ref F64.one n).
  { intros n. unfold locals_at. apply for_range_ext; assumption. }
  rewrite (simulate_trace_ext self ref) by assumption.
  rewrite !E. repeat split; vm_compute; reflexivity.
Qed.

Lemma C4_literal_scenario_witness :
  map_result trace_of
    (simulate_pid_response (fresh F64.one F64.one F64.zero F64.zero)
       F64.two F64.one)
  = Ok (mkTrace [F64.zero; F64.one] [F64.zero; F64.one]
          [F64.one; F64.one] [F64.one; F64.two]).
Proof.
  exact (proj1
    (C4_literal_scenario (fresh F64.one F64.one F64.zero F64.zero)
       eq_refl eq_refl eq_refl eq_refl)).
Defined.

(** ** C9: the playback mechanism *)

Lemma update_data_inv (self self' : PIDResponseGraph) (idx : Z) :
  _update_data self idx = Ok self' -> self' = set_rendered_idx self idx.
Proof.
  unfold _update_data.
  repeat match goal with
         | |- context [bind ?r _] => destruct r; cbn [bind]; [|discriminate]
         end.
  now injection 1.
Qed.

Lemma on_time_change_inv (self self' : PIDResponseGraph) (val : float) :
  _on_time_change self val = Ok self' ->
  exists idx,
    sample_index self val = Ok idx
    /\ self' = set_time_marker (set_rendered_idx self idx) val.
Proof.
  unfold _on_time_change.
  destruct (sample_index self val) as [idx|e]; [|discriminate].
  cbn [bind].
  destruct (_update_data self idx) as [self1|e] eqn:Hu; [|discriminate].
  cbn [bind]. injection 1 as <-.
  exists idx. split; [reflexivity|].
  now rewrite (update_data_inv _ _ _ Hu).
Qed.

Lemma animate_playing (self self' : PIDResponseGraph) :
  _is_playing self = true ->
  _frame_idx self < Z.of_nat (length (_t self)) - 1 ->
  _animate self = Ok self' ->
  exists val idx,
    np.getitem (_t self) (_frame_idx self) = Ok val
    /\ sample_index (set_slider_time_val self val) val = Ok idx
    /\ self' = set_playback
                 (set_time_marker
                    (set_rendered_idx (set_slider_time_val self val) idx) val)
                 true (_frame_idx self + 10) (_btn_play_label self).
Proof.
  intros Hp Hlt. unfold _animate. rewrite Hp.
  destruct (Z.ltb_spec (_frame_idx self) (Z.of_nat (length (_t self)) - 1));
    [|lia].
  destruct (np.getitem (_t self) (_frame_idx self)) as [val|e];
    [|discriminate].
  cbn [bind]. unfold slider_time_set_val.
  destruct (_on_time_change _ val) as [self1|e] eqn:Hc; [|discriminate].
  cbn [bind]. injection 1 as <-.
  destruct (on_time_change_inv _ _ _ Hc) as (idx & Hidx & ->).
  exists val, idx. cbn. rewrite Hp. auto.
Qed.

(** C9.  Playback has the two states Stopped and Playing.  The play
    button takes Stopped to Playing and Playing to Stopped.  A tick in
    Playing whose frame index has reached the last sample stops the
    playback and resets the frame index to 0; a tick in Playing before
    that, when it completes, stays in Playing, moves the time slider to
    the sample at the frame index and advances the frame index.  A tick
    in Stopped changes nothing, and the button never moves the slider. *)
Theorem C9_playback_machine (self : PIDResponseGraph) :
  (state_of self = Stopped -> state_of (_toggle_play self) = Playing)
  /\ (state_of self = Playing -> state_of (_toggle_play self) = Stopped)
  /\ _slider_time_val (_toggle_play self) = _slider_time_val self
  /\ (state_of self = Stopped -> _animate self = Ok self)
  /\ (state_of self = Playing ->
      Z.of_nat (length (_t self)) - 1 <= _frame_idx self ->
      exists self',
        _animate self = Ok self'
        /\ state_of self' = Stopped /\ _frame_idx self' = 0
        /\ _slider_time_val self' = _slider_time_val self)
  /\ (state_of self = Playing ->
      _frame_idx self < Z.of_nat (length (_t self)) - 1 ->
      forall self',
        _animate self = Ok self' ->
        state_of self' = Playing
        /\ _frame_idx self' = _frame_idx self + 10
        /\ np.getitem (_t self) (_frame_idx self)
           = Ok (_slider_time_val self')).
Proof.
  unfold state_of.
  destruct (_is_playing self) eqn:Hp.
  - split; [discriminate|]. split; [intros _; cbn; now rewrite Hp|].
    split; [reflexivity|]. split; [discriminate|]. split.
    + intros _ Hend. unfold _animate. rewrite Hp.
      destruct (Z.ltb_spec (_frame_idx self) (Z.of_nat (length (_t self)) - 1));
        [lia|].
      eexists. split; [reflexivity|]. cbn. auto.
    + intros _ Hlt self' H.
      destruct (animate_playing _ _ Hp Hlt H) as (val & idx & Hg & _ & ->).
      cbn. auto.
  - split; [intros _; cbn; now rewrite Hp|]. split; [discriminate|].
    split; [reflexivity|].
    split; [intros _; unfold _animate; now rewrite Hp|].
    split; discriminate.
Qed.

Lemma C9_playback_machine_witness :
  exists self0 self1,
    simulate_pid_response (fresh F64.one F64.four F64.zero F64.zero)
      (F64.of_Z 25) F64.one = Ok self0
    /\ state_of (_toggle_play self0) = Playing
    /\ _animate (_toggle_play self0) = Ok self1
    /\ state_of self1 = Playing
    /\ _frame_idx self1 = 10.
Proof.
  destruct (simulate_pid_response (fresh F64.one F64.four F64.zero F64.zero)
              (F64.of_Z 25) F64.one) as [self0|e] eqn:E0;
    [|vm_compute in E0; discriminate E0].
  assert (P0 : state_of self0 = Stopped).
  { vm_compute in E0. injection E0 as <-. reflexivity. }
  assert (L0 : length (_t self0) = 25%nat)
    by (rewrite (simulate_count _ _ _ _ E0); vm_compute; reflexivity).
  assert (F0 : _frame_idx self0 = 0).
  { vm_compute in E0. injection E0 as <-. reflexivity. }
  destruct (_animate (_toggle_play self0)) as [self1|e] eqn:E1.
  2:{ vm_compute in E0. injection E0 as <-. vm_compute in E1. discriminate E1. }
  exists self0, self1. split; [reflexivity|].
  pose proof (proj1 (C9_playback_machine self0) P0) as P1.
  split; [exact P1|]. split; [exact E1|].
  assert (Hlt : _frame_idx (_toggle_play self0)
                < Z.of_nat (length (_t (_toggle_play self0))) - 1).
  { cbn [_toggle_play set_playback _frame_idx _t]. rewrite F0, L0.
    reflexivity. }
  destruct (proj2 (proj2 (proj2 (proj2 (proj2
              (C9_playback_machine (_toggle_play self0))))))
              P1 Hlt self1 E1) as (Hs & Hf & _).
  split; [exact Hs|]. rewrite Hf.
  cbn [_toggle_play set_playback _frame_idx]. now rewrite F0.
Defined.

(** ** C2: lengths and sample times *)

(** The claim fails.  With duration = 1.0 and an infinite step (a float
    that is > 0) the run returns one sample, although the quotient
    duration / dt is 0 with ceiling 0, and t[0] = 0.0 is not equal to
    0 * dt, which is NaN.  With finite inputs, duration = 5e-324 and
    dt = 4.0, the float quotient underflows to 0, whose ceiling is 0,
    and the run returns one sample as well. *)
Lemma C2_counterexample :
  (F64.ltb F64.zero F64.one = true
   /\ F64.ltb F64.zero (S754_infinity false) = true
   /\ map_result _t
        (simulate_pid_response (fresh F64.one F64.four F64.zero F64.zero)
           F64.one (S754_infinity false))
      = Ok [F64.zero]
   /\ F64.Zceil (F64.one / S754_infinity false)%f64 = 0
   /\ (F64.zero == F64.of_Z 0 * S754_infinity false)%f64 = false)
  /\ (F64.ltb F64.zero (S754_finite false 1 (-1074)) = true
      /\ F64.ltb F64.zero F64.four = true
      /\ map_result _t
           (simulate_pid_response (fresh F64.one F64.four F64.zero F64.zero)
              (S754_finite false 1 (-1074)) F64.four)
         = Ok [F64.zero]
      /\ F64.Zceil (S754_finite false 1 (-1074) / F64.four)%f64 = 0).
Proof. repeat split; vm_compute; reflexivity. Qed.

Lemma Zceil_positive (m : positive) (e : Z) :
  0 < F64.Zceil (S754_finite false m e).
Proof.
  unfold F64.Zceil. cbn [F64.exponent F64.signed_mantissa cond_Zopp].
  destruct e as [|p|p].
  - cbn. lia.
  - pose proof (Z.pow_pos_nonneg 2 (Zpos p)). nia.
  - assert (H2 : 0 < 2 ^ Zpos p) by (apply Z.pow_pos_nonneg; lia).
    assert (H : - Zpos m / 2 ^ Zpos p < 0)
      by (apply Z.div_lt_upper_bound; lia).
    change (- Zpos m) with (Zneg m) in H. lia.
Qed.

Lemma positive_quotient_zero (duration dt : float) :
  F64.ltb F64.zero dt = true ->
  F64.ltb F64.zero duration = true ->
  F64.is_zero (duration / dt)%f64 = true ->
  F64.is_zero duration = false /\ F64.signbit (duration / dt)%f64 = false.
Proof.
  intros Hdt Hdur Hq.
  destruct (positive_inv _ Hdt) as [->|(m & e & ->)];
    destruct (positive_inv _ Hdur) as [->|(m' & e' & ->)];
    try discriminate; try (split; reflexivity).
  split; [reflexivity|].
  destruct (div_finite_cases false false m' m e' e) as [E|[E|(m1 & e1 & E)]];
    cbn [xorb] in E; rewrite E in Hq |- *; try discriminate; reflexivity.
Qed.

(** A run whose time array holds at most 2^20 samples returns. *)
Lemma simulate_returns (self : PIDResponseGraph) (duration dt : float) :
  F64.is_zero dt = false ->
  count_in_range duration dt = true ->
  F64.Zceil (duration / dt)%f64 <= 2 ^ 20 ->
  exists self', simulate_pid_response self duration dt = Ok self'.
Proof.
  intros Hz Hr Hn.
  destruct (arange_returns duration dt) as [ts Hts]; trivial.
  - assert (Hs : np.address_space = 2 ^ 47) by reflexivity. lia.
  - destruct (simulate_of_arange self _ _ _ Hts) as (self' & Hs & _).
    now exists self'.
Qed.

(** C2, amended.  For a positive duration and a positive step (a binary64
    datum), with q the float quotient duration / dt: the run returns when
    q is a finite float with ceil(q) <= 2^20; and whenever it returns,
    its four sequences have the same length N, where N = 1 when q is
    zero (the division underflowed, or the step is infinite), N = ceil(q)
    when q is not zero and ceil(q) < 2^63, and N = 0 when ceil(q) = 2^63;
    for a finite step, t[i] == i * dt for every index i below N. *)
Theorem C2_lengths_and_times
    (self : PIDResponseGraph) (duration dt : float) :
  F64.valid dt = true ->
  F64.ltb F64.zero dt = true ->
  F64.ltb F64.zero duration = true ->
  let q := (duration / dt)%f64 in
  (F64.is_finite q = true -> F64.Zceil q <= 2 ^ 20 ->
   exists self', simulate_pid_response self duration dt = Ok self')
  /\ forall self',
       simulate_pid_response self duration dt = Ok self' ->
       let N := length (_t self') in
       length (_values self') = N
       /\ length (_errors self') = N
       /\ length (_integrals self') = N
       /\ (F64.is_zero q = true -> N = 1%nat)
       /\ (F64.is_zero q = false -> F64.Zceil q < 2 ^ 63 ->
           N = Z.to_nat (F64.Zceil q))
       /\ (2 ^ 63 <= F64.Zceil q -> N = 0%nat)
       /\ (F64.is_finite dt = true ->
           forall i : nat,
             (i < N)%nat ->
             exists ti,
               nth_error (_t self') i = Some ti
               /\ (ti == F64.of_Z (Z.of_nat i) * dt)%f64 = true).
Proof.
  intros Hv Hdt Hdur q.
  assert (Hmax : np.intp_max = 2 ^ 63 - 1) by reflexivity.
  assert (Hmin : np.intp_min = - 2 ^ 63) by reflexivity.
  split.
  { intros Hfin Hn.
    apply simulate_returns; [now apply positive_step_nonzero | | assumption].
    apply count_in_range_intro; [assumption|]. fold q.
    assert (0 <= F64.Zceil q); [|lia].
    subst q.
    destruct (positive_inv _ Hdt) as [->|(m & e & ->)];
      destruct (positive_inv _ Hdur) as [->|(m' & e' & ->)];
      try discriminate; try (apply Z.leb_le; reflexivity).
    destruct (div_finite_cases false false m' m e' e) as [E|[E|(m1 & e1 & E)]];
      cbn [xorb] in E; rewrite E in Hfin |- *; try discriminate Hfin;
      [apply Z.leb_le; reflexivity|].
    pose proof (Zceil_positive m1 e1). lia. }
  intros self' H N.
  destruct (simulate_lengths _ _ _ _ H) as (Lv & Le & Li).
  pose proof (arange_length _ _ _ (simulate_times _ _ _ _ H)) as L.
  cbv zeta in L. fold q N in L.
  split; [assumption|]. split; [assumption|]. split; [assumption|].
  split; [|split; [|split]].
  - intros Hq.
    destruct (positive_quotient_zero _ _ Hdt Hdur Hq) as [Hd Hs].
    fold q in Hs. now rewrite Hq, Hd, Hs in L.
  - intros Hq Hlt. rewrite Hq in L. cbn [andb] in L.
    destruct (Z.leb_spec (F64.Zceil q) np.intp_max); [assumption|lia].
  - intros Hge.
    assert (Hq : F64.is_zero q = false).
    { destruct q as [s|s| |s m e]; try reflexivity.
      rewrite Zceil_zero in Hge. lia. }
    rewrite Hq in L. cbn [andb] in L.
    destruct (Z.leb_spec (F64.Zceil q) np.intp_max); [lia|assumption].
  - intros Hfin i Hi.
    destruct (simulate_inv _ _ _ _ H) as (n & _ & Ht & _).
    assert (n = N) by (subst N; now rewrite Ht, length_map, length_seq).
    subst n. rewrite Ht, nth_error_map_seq by assumption.
    eexists. split; [reflexivity|].
    now apply arange_item_time.
Qed.

Lemma C2_lengths_and_times_witness :
  exists self',
    simulate_pid_response (fresh F64.one F64.one F64.zero F64.zero)
      F64.four F64.one = Ok self'
    /\ length (_t self') = 4%nat
    /\ length (_values self') = 4%nat
    /\ length (_errors self') = 4%nat
    /\ length (_integrals self') = 4%nat
    /\ exists t3,
         nth_error (_t self') 3 = Some t3
         /\ (t3 == F64.of_Z 3 * F64.one)%f64 = true.
Proof.
  pose proof (C2_lengths_and_times (fresh F64.one F64.one F64.zero F64.zero)
                F64.four F64.one eq_refl eq_refl eq_refl) as [Hex Hall].
  destruct (Hex eq_refl ltac:(vm_compute; discriminate)) as [self' E].
  exists self'. split; [exact E|].
  destruct (Hall self' E) as (Hv & He & Hi & _ & Hn & _ & Ht).
  assert (L : length (_t self') = 4%nat)
    by (rewrite Hn; [reflexivity | reflexivity | vm_compute; reflexivity]).
  rewrite Hv, He, Hi.
  repeat split; try exact L.
  apply (Ht eq_refl). rewrite L. repeat constructor.
Defined.

(** ** C10: a non-positive duration *)

(** The claim fails.  With duration = -1e300 and dt = 0.01 the quotient
    lies below the index range, and the run raises ValueError instead of
    returning empty sequences. *)
Lemma C10_counterexample :
  F64.ltb F64.zero F64.hundredth = true
  /\ F64.leb (- F64.of_Z (10 ^ 300))%f64 F64.zero = true
  /\ simulate_pid_response (fresh F64.one F64.four F64.zero F64.zero)
       (- F64.of_Z (10 ^ 300))%f64 F64.hundredth
     = Raise ValueError.
Proof. repeat split; vm_compute; reflexivity. Qed.

(** C10, amended.  For a positive step and a duration that is zero or
    negative: when their quotient is a finite float whose ceiling fits the
    index type, the run raises nothing and leaves four empty sequences in
    the object, whatever trace it held; otherwise (the quotient is NaN,
    infinite or below -2^63) it raises ValueError. *)
Theorem C10_nonpositive_duration
    (self : PIDResponseGraph) (duration dt : float) :
  F64.ltb F64.zero dt = true ->
  F64.leb duration F64.zero = true ->
  (count_fits duration dt = true ->
   exists self',
     simulate_pid_response self duration dt = Ok self'
     /\ _t self' = [] /\ _values self' = []
     /\ _errors self' = [] /\ _integrals self' = [])
  /\ (count_fits duration dt = false ->
      simulate_pid_response self duration dt = Raise ValueError).
Proof.
  intros Hdt Hdur. split; intros Hf.
  - destruct (count_fits_inv _ _ Hf) as (Hfin & Hlo & _).
    apply simulate_empty. now apply arange_nonpositive.
  - apply simulate_fails, arange_out_of_range;
      [now apply positive_step_nonzero|].
    destruct (count_in_range duration dt) eqn:Hr; [|reflexivity].
    destruct (count_in_range_inv _ _ Hr) as (Hfin & Hlo & _).
    destruct (quotient_nonpositive _ _ Hdt Hdur Hfin) as [Hhi _].
    rewrite <- Hf. unfold count_fits. cbv zeta. rewrite Hfin.
    assert (Hmax : 0 < np.intp_max) by reflexivity.
    apply Z.leb_le in Hlo. rewrite Hlo. cbn [andb].
    symmetry. apply Z.leb_le. lia.
Qed.

Lemma C10_nonpositive_duration_witness :
  (exists self',
     simulate_pid_response
       (mkGraph [F64.one] [F64.one] [] [F64.one] [F64.zero]
          F64.one F64.four F64.zero F64.zero false 0 F64.zero F64.zero
          "Play" None)
       (- F64.one)%f64 F64.hundredth = Ok self'
     /\ _t self' = [] /\ _values self' = []
     /\ _errors self' = [] /\ _integrals self' = [])
  /\ simulate_pid_response (fresh F64.one F64.four F64.zero F64.zero)
       (S754_infinity true) F64.hundredth = Raise ValueError.
Proof.
  split.
  - exact (proj1 (C10_nonpositive_duration _ (- F64.one)%f64 F64.hundredth
                    eq_refl eq_refl) eq_refl).
  - exact (proj2 (C10_nonpositive_duration _ (S754_infinity true) F64.hundredth
                    eq_refl eq_refl) eq_refl).
Defined.

(** ** C3: when a run fails *)

(** The claim fails: with duration = 0.0 and dt = 0.01 the run returns
    an (empty) trace instead of failing. *)
Lemma C3_counterexample :
  F64.leb F64.zero F64.zero = true
  /\ map_result trace_of
       (simulate_pid_response (fresh F64.one F64.four F64.zero F64.zero)
          F64.zero F64.hundredth)
     = Ok (mkTrace [] [] [] []).
Proof. split; reflexivity. Qed.

Lemma simulate_outcome_ext (self other : PIDResponseGraph) (duration dt : float) :
  map_result (fun _ => tt) (simulate_pid_response self duration dt)
  = map_result (fun _ => tt) (simulate_pid_response other duration dt).
Proof.
  unfold simulate_pid_response, bind.
  now destruct (np.arange F64.zero duration dt).
Qed.

(** C3, amended.  The run checks nothing itself and has no error kind of
    its own.  It raises, before the loop starts and without storing
    anything, ZeroDivisionError when dt is zero, and ValueError when
    duration / dt is not a finite float whose ceiling lies between -2^63
    and 2^63.  With dt > 0 and duration <= 0 inside that range it does not
    fail: it returns an empty trace.  With dt > 0 and duration > 0 giving
    at most 2^20 samples it returns a trace, whatever the gains and the
    setpoint; and in general whether a run returns, and what it raises,
    depends on duration and dt only. *)
Theorem C3_failure_modes
    (self other : PIDResponseGraph) (duration dt : float) :
  (F64.is_zero dt = true ->
   simulate_pid_response self duration dt = Raise ZeroDivisionError)
  /\ (F64.is_zero dt = false -> count_in_range duration dt = false ->
      simulate_pid_response self duration dt = Raise ValueError)
  /\ (F64.ltb F64.zero dt = true -> F64.leb duration F64.zero = true ->
      count_in_range duration dt = true ->
      map_result trace_of (simulate_pid_response self duration dt)
      = Ok (mkTrace [] [] [] []))
  /\ (F64.ltb F64.zero dt = true -> F64.ltb F64.zero duration = true ->
      count_in_range duration dt = true ->
      F64.Zceil (duration / dt)%f64 <= 2 ^ 20 ->
      exists self', simulate_pid_response self duration dt = Ok self')
  /\ map_result (fun _ => tt) (simulate_pid_response self duration dt)
     = map_result (fun _ => tt) (simulate_pid_response other duration dt).
Proof.
  split; [|split; [|split; [|split]]].
  - intros Hz. now apply simulate_fails, arange_zero_step.
  - intros Hz Hr. now apply simulate_fails, arange_out_of_range.
  - intros Hdt Hdur Hr.
    destruct (count_in_range_inv _ _ Hr) as (Hfin & Hlo & _).
    pose proof (arange_nonpositive _ _ Hdt Hdur Hfin Hlo) as Ha.
    unfold simulate_pid_response, bind. now rewrite Ha.
  - intros Hdt Hdur Hr Hn.
    apply simulate_returns; auto using positive_step_nonzero.
  - apply simulate_outcome_ext.
Qed.

Lemma C3_failure_modes_witness :
  simulate_pid_response (fresh F64.one F64.four F64.zero F64.zero)
    F64.one F64.zero = Raise ZeroDivisionError
  /\ simulate_pid_response (fresh F64.one F64.four F64.zero F64.zero)
       (S754_infinity false) F64.hundredth = Raise ValueError
  /\ map_result trace_of
       (simulate_pid_response (fresh F64.one F64.four F64.zero F64.zero)
          (- F64.one)%f64 F64.hundredth)
     = Ok (mkTrace [] [] [] [])
  /\ exists self',
       simulate_pid_response (fresh F64.zero (- F64.four)%f64 F64.zero F64.zero)
         F64.ten F64.hundredth = Ok self'.
Proof.
  pose proof (C3_failure_modes (fresh F64.one F64.four F64.zero F64.zero)
                (fresh F64.one F64.four F64.zero F64.zero)) as H.
  split; [exact (proj1 (H F64.one F64.zero) eq_refl)|].
  split;
    [exact (proj1 (proj2 (H (S754_infinity false) F64.hundredth))
              eq_refl eq_refl)|].
  split;
    [exact (proj1 (proj2 (proj2 (H (- F64.one)%f64 F64.hundredth)))
              eq_refl eq_refl eq_refl)|].
  refine (proj1 (proj2 (proj2 (proj2
            (C3_failure_modes
               (fresh F64.zero (- F64.four)%f64 F64.zero F64.zero)
               (fresh F64.one F64.four F64.zero F64.zero)
               F64.ten F64.hundredth))))
            eq_refl eq_refl eq_refl _).
  vm_compute. discriminate.
Defined.

(** ** C5: zero gains *)

(** The claim fails on the integral: in the default run (setpoint 1.0,
    duration 10.0, dt 0.01) with all gains zero, integral[5] is
    0.01 added six times, 0.060000000000000005, not 1.0 * 6 * 0.01. *)
Lemma C5_counterexample :
  exists self' a,
    simulate_pid_response (fresh F64.one F64.zero F64.zero F64.zero)
      F64.ten F64.hundredth = Ok self'
    /\ nth_error (_integrals self') 5 = Some a
    /\ (a == F64.one * F64.of_Z (5 + 1) * F64.hundredth)%f64 = false.
Proof.
  destruct (simulate_pid_response (fresh F64.one F64.zero F64.zero F64.zero)
              F64.ten F64.hundredth) as [self'|e] eqn:E;
    [|vm_compute in E; discriminate E].
  exists self'.
  vm_compute in E. injection E as <-.
  eexists. split; [reflexivity|]. split; [reflexivity|].
  vm_compute. reflexivity.
Qed.

Section ZeroGain.

Variable self : PIDResponseGraph.
Variables (m : positive) (e : Z).

Local Abbreviation dt := (S754_finite false m e).

Hypothesis HKp : F64.is_zero (_Kp self) = true.
Hypothesis HKi : F64.is_zero (_Ki self) = true.
Hypothesis HKd : F64.is_zero (_Kd self) = true.

(** With zero gains a step whose error, integral and derivative are
    finite leaves the plant at rest. *)
Lemma zero_gain_step (s : Locals.t) :
  F64.is_zero (Locals.x s) = true ->
  F64.is_zero (Locals.v s) = true ->
  let error := (_setpoint self - Locals.x s)%f64 in
  F64.is_finite error = true ->
  F64.is_finite (Locals.integral s + error * dt)%f64 = true ->
  F64.is_finite ((error - Locals.previous_error s) / dt)%f64 = true ->
  F64.is_zero (Locals.x (loop_body self dt s)) = true
  /\ F64.is_zero (Locals.v (loop_body self dt s)) = true.
Proof.
  intros Hx Hv error He Hi Hd.
  cbn [loop_body Locals.x Locals.v]. fold error.
  assert (Hu : F64.is_zero
                 (control self error (Locals.integral s + error * dt)
                    ((error - Locals.previous_error s) / dt))%f64 = true).
  { unfold control. repeat apply add_zero_zero; now apply mul_zero_l. }
  split.
  - apply add_zero_zero; [assumption|]. now apply mul_zero_l.
  - apply add_zero_zero; [assumption|]. apply mul_zero_l; [|reflexivity].
    apply add_zero_zero; [|assumption].
    apply sub_zero_zero; [now apply opp_zero|].
    now apply mul_zero_r.
Qed.

(** *** A non-zero finite setpoint *)

Section NonZero.

Variables (ss : bool) (ms : positive) (es : Z).
Hypothesis Hsp : _setpoint self = S754_finite ss ms es.

Local Abbreviation sp := (S754_finite ss ms es).

Hypothesis Hderiv : F64.is_finite (sp / dt)%f64 = true.

Lemma zero_gain_invariant (j : nat) :
  F64.is_finite (repeated_add (sp * dt)%f64 j) = true ->
  let s := locals_at self dt j in
  F64.is_zero (Locals.x s) = true
  /\ F64.is_zero (Locals.v s) = true
  /\ Locals.integral s = repeated_add (sp * dt)%f64 j
  /\ (Locals.previous_error s = F64.zero \/ Locals.previous_error s = sp).
Proof.
  induction j as [|j IH]; intros Hfin s.
  - subst s. cbn. auto.
  - cbn [repeated_add] in Hfin.
    specialize (IH (is_finite_add_l _ _ Hfin)). cbv zeta in IH.
    destruct IH as (Hx & Hv & Hi & Hp).
    subst s. unfold locals_at in *. rewrite for_range_succ.
    set (s := for_range self dt j initial_locals) in *.
    assert (He : (_setpoint self - Locals.x s)%f64 = sp).
    { rewrite Hsp. now apply sub_finite_zero. }
    assert (Hi' : (Locals.integral s + (_setpoint self - Locals.x s) * dt)%f64
                  = (repeated_add (sp * dt) j + sp * dt)%f64)
      by now rewrite He, Hi.
    destruct (zero_gain_step s Hx Hv) as (Hx' & Hv').
    + now rewrite He.
    + now rewrite Hi'.
    + rewrite He. destruct Hp as [-> | ->].
      * now rewrite sub_zero_r.
      * now rewrite sub_diag_finite.
    + split; [exact Hx'|]. split; [exact Hv'|]. split.
      * cbn [loop_body Locals.integral]. exact Hi'.
      * right. cbn [loop_body Locals.previous_error]. exact He.
Qed.

End NonZero.

(** *** A zero setpoint *)

Section ZeroSetpoint.

Hypothesis Hsp : F64.is_zero (_setpoint self) = true.

Lemma zero_setpoint_invariant (j : nat) :
  let s := locals_at self dt j in
  F64.is_zero (Locals.x s) = true
  /\ F64.is_zero (Locals.v s) = true
  /\ F64.is_zero (Locals.integral s) = true
  /\ F64.is_zero (Locals.previous_error s) = true.
Proof.
  induction j as [|j IH]; intros s.
  - subst s. cbn. auto.
  - cbv zeta in IH. destruct IH as (Hx & Hv & Hi & Hp).
    subst s. unfold locals_at in *. rewrite for_range_succ.
    set (s := for_range self dt j initial_locals) in *.
    assert (He : F64.is_zero (_setpoint self - Locals.x s)%f64 = true)
      by now apply sub_zero_zero.
    assert (Hi' : F64.is_zero
                    (Locals.integral s
                     + (_setpoint self - Locals.x s) * dt)%f64 = true).
    { apply add_zero_zero; [assumption|]. now apply mul_zero_l. }
    destruct (zero_gain_step s Hx Hv) as (Hx' & Hv').
    + now apply is_zero_finite.
    + now apply is_zero_finite.
    + apply is_zero_finite, div_zero_l; try reflexivity.
      now apply sub_zero_zero.
    + repeat split; trivial.
Qed.

Lemma repeated_add_zero (j : nat) :
  F64.is_zero (repeated_add (_setpoint self * dt)%f64 j) = true.
Proof.
  induction j as [|j IH]; [reflexivity|].
  cbn [repeated_add]. apply add_zero_zero; [assumption|].
  now apply mul_zero_l.
Qed.

End ZeroSetpoint.

End ZeroGain.

(** C5, amended.  With Kp = Ki = Kd = 0 and dt > 0, in a run that
    returns, for every index i such that setpoint / dt and the sum of
    i + 1 terms setpoint * dt are finite: value[i] == 0,
    error[i] == setpoint, and integral[i] is setpoint * dt added to zero
    i + 1 times, each addition rounded (which is not, in general, the
    product setpoint * (i + 1) * dt). *)
Theorem C5_zero_gain
    (self self' : PIDResponseGraph) (duration dt : float) (i : nat) :
  F64.is_zero (_Kp self) = true ->
  F64.is_zero (_Ki self) = true ->
  F64.is_zero (_Kd self) = true ->
  F64.ltb F64.zero dt = true ->
  simulate_pid_response self duration dt = Ok self' ->
  (i < length (_t self'))%nat ->
  F64.is_finite (_setpoint self / dt)%f64 = true ->
  F64.is_finite (repeated_add (_setpoint self * dt)%f64 (S i)) = true ->
  exists val err acc,
    nth_error (_values self') i = Some val
    /\ nth_error (_errors self') i = Some err
    /\ nth_error (_integrals self') i = Some acc
    /\ (val == F64.zero)%f64 = true
    /\ (err == _setpoint self)%f64 = true
    /\ (acc == repeated_add (_setpoint self * dt)%f64 (S i))%f64 = true.
Proof.
  intros HKp HKi HKd Hdt H Hi Hderiv Hsum.
  destruct (recorded_at _ _ _ _ _ H Hi) as (Hv & He & Hint).
  do 3 eexists. split; [exact Hv|]. split; [exact He|]. split; [exact Hint|].
  assert (Hprod : F64.is_finite (_setpoint self * dt)%f64 = true).
  { cbn [repeated_add] in Hsum.
    destruct (repeated_add _ i) as [s|[]| |s m e],
             (_setpoint self * dt)%f64 as [s'|[]| |s' m' e'];
      try reflexivity; discriminate. }
  destruct (positive_inv _ Hdt) as [->|(m & e & ->)].
  { destruct (_setpoint self) as [s|s| |s m e]; discriminate. }
  pose proof (is_finite_mul_l _ _ Hprod) as Hsp.
  destruct (_setpoint self) as [s0|s0| |ss ms es] eqn:Esp; try discriminate.
  - (* the setpoint is a zero *)
    assert (Hz : F64.is_zero (_setpoint self) = true) by now rewrite Esp.
    destruct (zero_setpoint_invariant self m e HKp HKi HKd Hz (S i))
      as (Hx' & _ & Hi' & _).
    destruct (zero_setpoint_invariant self m e HKp HKi HKd Hz i)
      as (Hx & _).
    pose proof (repeated_add_zero self m e Hz (S i)) as Hr.
    rewrite Esp in Hr.
    repeat split.
    + now apply eqb_zero_zero.
    + apply eqb_zero_zero; [|reflexivity].
      rewrite <- Esp. now apply sub_zero_zero.
    + now apply eqb_zero_zero.
  - (* the setpoint is finite and not zero *)
    destruct (zero_gain_invariant self m e HKp HKi HKd ss ms es Esp Hderiv
                (S i) Hsum) as (Hx' & _ & Hi' & _).
    destruct (zero_gain_invariant self m e HKp HKi HKd ss ms es Esp Hderiv
                i (is_finite_add_l _ _ Hsum)) as (Hx & _).
    repeat split.
    + now apply eqb_zero_zero.
    + rewrite <- Esp at 1. rewrite Esp at 1.
      rewrite (sub_finite_zero ss ms es _ Hx).
      apply eqb_refl. discriminate.
    + rewrite Hi'. apply eqb_refl, is_finite_not_nan, Hsum.
Qed.

Lemma C5_zero_gain_witness :
  exists self' acc,
    simulate_pid_response (fresh F64.one F64.zero F64.zero F64.zero)
      F64.ten F64.hundredth = Ok self'
    /\ nth_error (_integrals self') 5 = Some acc
    /\ (acc == repeated_add (F64.one * F64.hundredth)%f64 6)%f64 = true.
Proof.
  destruct (simulate_pid_response (fresh F64.one F64.zero F64.zero F64.zero)
              F64.ten F64.hundredth) as [self'|e] eqn:E;
    [|vm_compute in E; discriminate E].
  assert (L : (5 < length (_t self'))%nat).
  { rewrite (simulate_count _ _ _ _ E). apply Nat.ltb_lt.
    vm_compute. reflexivity. }
  destruct (C5_zero_gain (fresh F64.one F64.zero F64.zero F64.zero) self'
              F64.ten F64.hundredth 5
              eq_refl eq_refl eq_refl eq_refl E L eq_refl eq_refl)
    as (val & err & acc & _ & _ & Hacc & _ & _ & Heq).
  exists self', acc. auto.
Defined.

(** ** C8: the sample lookup *)

Lemma clamp_trunc_floor (q : float) (hi : Z) :
  0 <= hi ->
  Z.min (Z.max 0 (F64.Ztrunc q)) hi = clamp (F64.Zfloor q) 0 hi.
Proof.
  intros Hhi. unfold clamp, F64.Ztrunc, F64.Zfloor.
  destruct (F64.exponent q) as [|p|p]; try reflexivity.
  assert (Hp : 0 < 2 ^ Zpos p) by (apply Z.pow_pos_nonneg; lia).
  destruct (Z_le_gt_dec 0 (F64.signed_mantissa q)) as [Hm|Hm].
  - now rewrite Z.quot_div_nonneg by lia.
  - assert (F64.signed_mantissa q / 2 ^ Zpos p < 0)
      by (apply Z.div_lt_upper_bound; lia).
    assert (Z.quot (F64.signed_mantissa q) (2 ^ Zpos p) <= 0).
    { rewrite <- (Z.opp_involutive (F64.signed_mantissa q)), Z.quot_opp_l
        by lia.
      pose proof (Z.quot_pos (- F64.signed_mantissa q) (2 ^ Zpos p)). lia. }
    lia.
Qed.

Lemma Zfloor_negative (m : positive) (e : Z) :
  F64.Zfloor (S754_finite true m e) <= 0.
Proof.
  unfold F64.Zfloor. cbn [F64.exponent F64.signed_mantissa cond_Zopp].
  destruct e as [|p|p].
  - cbn. lia.
  - pose proof (Z.pow_pos_nonneg 2 (Zpos p)). nia.
  - assert (Z.neg m / 2 ^ Zpos p < 0); [|lia].
    apply Z.div_lt_upper_bound; [apply Z.pow_pos_nonneg|]; lia.
Qed.

(** The step a consumer reads back from a trace is the step of the run. *)
Lemma sample_index_of_run
    (self self' : PIDResponseGraph) (duration dt tau : float) :
  simulate_pid_response self duration dt = Ok self' ->
  (2 <= length (_t self'))%nat ->
  F64.is_finite (tau / dt)%f64 = true ->
  sample_index self' tau
  = Ok (clamp (F64.Zfloor (tau / dt)%f64) 0
          (Z.of_nat (length (_t self')) - 1)).
Proof.
  intros H HN Hfin.
  pose proof (simulate_step_nonzero _ _ _ _ H) as Hz.
  destruct (simulate_inv _ _ _ _ H) as (n & _ & Ht & _).
  assert (Hlen : length (_t self') = n)
    by now rewrite Ht, length_map, length_seq.
  rewrite Hlen in *.
  destruct n as [|[|n]]; try lia.
  assert (G1 : np.getitem (_t self') 1 = Ok (F64.zero + dt)%f64).
  { unfold np.getitem. rewrite Hlen, Ht.
    change (1 <? 0) with false. cbv iota.
    destruct (Z.leb_spec 0 1); [|lia].
    destruct (Z.ltb_spec 1 (Z.of_nat (S (S n)))); [|lia].
    reflexivity. }
  assert (G0 : np.getitem (_t self') 0 = Ok F64.zero).
  { unfold np.getitem. rewrite Hlen, Ht.
    change (0 <? 0) with false. cbv iota.
    destruct (Z.leb_spec 0 0); [|lia].
    destruct (Z.ltb_spec 0 (Z.of_nat (S (S n)))); [|lia].
    reflexivity. }
  unfold sample_index. rewrite G1, G0, Hlen. cbn [bind].
  rewrite add_zero_l, sub_zero_r by assumption.
  unfold int.
  destruct (tau / dt)%f64 as [s|s| |s m e] eqn:Eq; try discriminate;
    cbn [bind]; f_equal; apply clamp_trunc_floor; lia.
Qed.

(** The claim fails on a trace of one sample: after a run with
    duration = dt = 1.0 the lookup of the time 0.0 raises IndexError
    instead of yielding index 0. *)
Lemma C8_counterexample :
  exists self',
    simulate_pid_response (fresh F64.one F64.four F64.zero F64.zero)
      F64.one F64.one = Ok self'
    /\ length (_t self') = 1%nat
    /\ sample_index self' F64.zero = Raise IndexError.
Proof. eexists. split; [reflexivity|]. split; reflexivity. Qed.

(** C8, amended.  On the trace of a run with a positive duration and a
    positive step dt, of length N between 2 and 2^53, for every query
    time tau whose quotient tau / dt is a finite float, the lookup yields
    clamp(floor(tau / dt), 0, N - 1); it yields 0 for every tau < 0 and
    N - 1 for every tau >= duration. *)
Theorem C8_sample_lookup
    (self self' : PIDResponseGraph) (duration dt tau : float) :
  F64.valid dt = true ->
  F64.ltb F64.zero dt = true ->
  F64.ltb F64.zero duration = true ->
  simulate_pid_response self duration dt = Ok self' ->
  (2 <= length (_t self'))%nat ->
  F64.is_finite (tau / dt)%f64 = true ->
  let N := Z.of_nat (length (_t self')) in
  sample_index self' tau = Ok (clamp (F64.Zfloor (tau / dt)%f64) 0 (N - 1))
  /\ (F64.ltb tau F64.zero = true -> sample_index self' tau = Ok 0)
  /\ (F64.valid duration = true -> F64.valid tau = true ->
      F64.leb duration tau = true -> N <= 2 ^ 53 ->
      sample_index self' tau = Ok (N - 1)).
Proof.
  intros Vdt Pdt Pd H HN Hfin N.
  pose proof (sample_index_of_run _ _ _ _ _ H HN Hfin) as Hidx.
  fold N in Hidx. rewrite Hidx.
  split; [reflexivity|]. split.
  - intros Hneg. f_equal. unfold clamp.
    assert (F64.Zfloor (tau / dt)%f64 <= 0); [|subst N; lia].
    destruct (positive_inv _ Pdt) as [->|(m & e & ->)].
    { destruct tau as [s|[]| |[] mq eq]; try discriminate;
        apply Z.leb_le; reflexivity. }
    destruct tau as [s|[]| |[] mq eq]; try discriminate.
    destruct (div_finite_cases true false mq m eq e) as [E|[E|(m1 & e1 & E)]];
      cbn [xorb] in E; rewrite E in Hfin |- *; try discriminate.
    apply Zfloor_negative.
  - intros Vd Vtau Hle HN53. f_equal. unfold clamp.
    destruct (simulate_count_ge2 _ _ _ _ H HN) as [Hfd Hc].
    assert (EN : N = F64.Zceil (duration / dt)%f64) by (subst N; lia).
    pose proof (floor_quotient_ge_count duration tau dt Vd Vtau Vdt Pdt Pd
                  Hle Hfd Hfin) as Hge.
    rewrite <- EN in Hge. specialize (Hge ltac:(subst N; lia)). lia.
Qed.

Lemma C8_sample_lookup_witness :
  exists self',
    simulate_pid_response (fresh F64.one F64.four F64.zero F64.zero)
      F64.ten F64.hundredth = Ok self'
    /\ sample_index self' (F64.of_Z 5) = Ok 500
    /\ sample_index self' (- F64.one)%f64 = Ok 0
    /\ sample_index self' (F64.of_Z 25) = Ok 999.
Proof.
  destruct (simulate_pid_response (fresh F64.one F64.four F64.zero F64.zero)
              F64.ten F64.hundredth) as [self'|e] eqn:E;
    [|vm_compute in E; discriminate E].
  exists self'. split; [reflexivity|].
  assert (L : length (_t self') = 1000%nat)
    by (rewrite (simulate_count _ _ _ _ E); vm_compute; reflexivity).
  assert (L2 : (2 <= length (_t self'))%nat) by (rewrite L; lia).
  split; [|split].
  - rewrite (proj1 (C8_sample_lookup _ _ F64.ten F64.hundredth (F64.of_Z 5)
                      eq_refl eq_refl eq_refl E L2 eq_refl)).
    rewrite L. vm_compute. reflexivity.
  - exact (proj1 (proj2 (C8_sample_lookup _ _ F64.ten F64.hundredth
                           (- F64.one)%f64
                           eq_refl eq_refl eq_refl E L2 eq_refl)) eq_refl).
  - rewrite (proj2 (proj2 (C8_sample_lookup _ _ F64.ten F64.hundredth
                             (F64.of_Z 25)
                             eq_refl eq_refl eq_refl E L2 eq_refl))
               eq_refl eq_refl eq_refl).
    + rewrite L. reflexivity.
    + rewrite L. vm_compute. discriminate.
Defined.

(** ** Indexing *)

Lemma getitem_in_range (a : list float) (i : Z) :
  0 <= i < Z.of_nat (length a) ->
  np.getitem a i = Ok (nth (Z.to_nat i) a F64.zero).
Proof.
  intros Hi. unfold np.getitem.
  destruct (Z.ltb_spec i 0); [lia|].
  destruct (Z.leb_spec 0 i); [|lia].
  destruct (Z.ltb_spec i (Z.of_nat (length a))); [|lia].
  reflexivity.
Qed.

Lemma getitem_in_range_neg (a : list float) (i : Z) :
  - Z.of_nat (length a) <= i < 0 ->
  np.getitem a i
  = Ok (nth (Z.to_nat (i + Z.of_nat (length a))) a F64.zero).
Proof.
  intros Hi. unfold np.getitem.
  destruct (Z.ltb_spec i 0); [|lia].
  destruct (Z.leb_spec 0 (i + Z.of_nat (length a))); [|lia].
  destruct (Z.ltb_spec (i + Z.of_nat (length a)) (Z.of_nat (length a)));
    [|lia].
  reflexivity.
Qed.

Lemma getitem_one_short (a : list float) :
  (length a < 2)%nat -> np.getitem a 1 = Raise IndexError.
Proof.
  intros Hl. unfold np.getitem. change (1 <? 0) with false. cbv iota.
  destruct (Z.ltb_spec 1 (Z.of_nat (length a))); [lia|].
  now rewrite andb_false_r.
Qed.

Lemma int_never_index_error (a : float) : int a <> Raise IndexError.
Proof. destruct a as [s|s| |s m e]; discriminate. Qed.

Lemma sample_index_Ok_inv (self : PIDResponseGraph) (val : float) (idx : Z) :
  sample_index self val = Ok idx ->
  (2 <= length (_t self))%nat
  /\ 0 <= idx <= Z.of_nat (length (_t self)) - 1.
Proof.
  intros H.
  destruct (le_lt_dec 2 (length (_t self))) as [Hl|Hl].
  - split; [exact Hl|]. unfold sample_index in H.
    rewrite !getitem_in_range in H by lia. cbn [bind] in H.
    destruct (int _) as [i|e]; [|discriminate].
    cbn [bind] in H. injection H as <-. lia.
  - unfold sample_index in H. rewrite getitem_one_short in H by assumption.
    discriminate.
Qed.

Lemma sample_index_raises (self : PIDResponseGraph) (val : float) (e : exn) :
  (2 <= length (_t self))%nat ->
  sample_index self val = Raise e -> e = ValueError \/ e = OverflowError.
Proof.
  intros Hl. unfold sample_index.
  rewrite !getitem_in_range by lia. cbn [bind].
  destruct (val / _)%f64 as [s|s| |s m x]; cbn; intros H;
    try discriminate; injection H as <-; auto.
Qed.

(** X1.  The lookup yields an index only on a trace of at least two samples,
    and the index it yields is a position of the trace; on a shorter
    trace it raises IndexError, on a longer one it can only raise
    ValueError or OverflowError (from [int] of a NaN or an infinity). *)
Theorem sample_index_in_bounds (self : PIDResponseGraph) (val : float) :
  ((length (_t self) < 2)%nat -> sample_index self val = Raise IndexError)
  /\ (forall idx,
        sample_index self val = Ok idx ->
        (2 <= length (_t self))%nat
        /\ 0 <= idx <= Z.of_nat (length (_t self)) - 1)
  /\ (forall e,
        (2 <= length (_t self))%nat ->
        sample_index self val = Raise e ->
        e = ValueError \/ e = OverflowError).
Proof.
  split; [|split].
  - intros Hl. unfold sample_index. now rewrite getitem_one_short.
  - apply sample_index_Ok_inv.
  - intros e. apply sample_index_raises.
Qed.

Lemma sample_index_in_bounds_witness :
  sample_index (fresh F64.one F64.four F64.zero F64.zero) F64.one
  = Raise IndexError.
Proof.
  apply (proj1 (sample_index_in_bounds
                  (fresh F64.one F64.four F64.zero F64.zero) F64.one)).
  cbn. lia.
Defined.

(** ** Rendering a sample *)

Lemma update_data_in_range (self : PIDResponseGraph) (idx : Z) :
  consistent self ->
  0 <= idx <= Z.of_nat (length (_t self)) - 1 ->
  _update_data self idx = Ok (set_rendered_idx self idx).
Proof.
  intros (Hv & He & Hi) Hidx. unfold _update_data.
  rewrite (getitem_in_range (_errors self) idx) by lia.
  rewrite (getitem_in_range (_integrals self) idx) by lia.
  cbn [bind].
  destruct ((0 <? idx) && (idx <? Z.of_nat (length (_t self)) - 1)) eqn:Hin;
    [|reflexivity].
  apply andb_true_iff in Hin. destruct Hin as [H0 H1].
  apply Z.ltb_lt in H0, H1.
  rewrite (getitem_in_range (_errors self) (idx + 1)) by lia.
  rewrite (getitem_in_range (_errors self) (idx - 1)) by lia.
  rewrite (getitem_in_range (_values self) (idx + 1)) by lia.
  rewrite (getitem_in_range (_values self) (idx - 1)) by lia.
  rewrite (getitem_in_range (_t self) idx) by lia.
  reflexivity.
Qed.

Lemma on_time_change_eq (self : PIDResponseGraph) (val : float) :
  consistent self ->
  _on_time_change self val
  = (idx <- sample_index self val ;;
     Ok (set_time_marker (set_rendered_idx self idx) val)).
Proof.
  intros Hc. unfold _on_time_change.
  destruct (sample_index self val) as [idx|e] eqn:Hs; [|reflexivity].
  cbn [bind].
  destruct (sample_index_Ok_inv self val idx Hs) as [_ Hb].
  now rewrite (update_data_in_range self idx Hc Hb).
Qed.

Lemma simulate_consistent (self self' : PIDResponseGraph) (duration dt : float) :
  simulate_pid_response self duration dt = Ok self' -> consistent self'.
Proof. apply simulate_lengths. Qed.

(** X2.  On an object whose four arrays have the same length, moving the time
    slider fails only if the lookup fails, never by indexing the arrays;
    otherwise it renders the sample the lookup yields and moves the time
    marker to the slider value, and changes nothing else. *)
Theorem on_time_change_consistent (self : PIDResponseGraph) (val : float) :
  consistent self ->
  _on_time_change self val
  = (idx <- sample_index self val ;;
     Ok (set_time_marker (set_rendered_idx self idx) val)).
Proof. apply on_time_change_eq. Qed.

Lemma on_time_change_consistent_witness :
  exists self',
    simulate_pid_response (fresh F64.one F64.four F64.zero F64.zero)
      F64.four F64.one = Ok self'
    /\ _on_time_change self' F64.two
       = Ok (set_time_marker (set_rendered_idx self' 2) F64.two).
Proof.
  eexists. split; [reflexivity|].
  rewrite on_time_change_consistent; [reflexivity|].
  repeat split; reflexivity.
Defined.

(** ** One tick *)

Lemma animate_cases (self self' : PIDResponseGraph) :
  _animate self = Ok self' ->
  (_is_playing self = false /\ self' = self)
  \/ (_is_playing self = true
      /\ Z.of_nat (length (_t self)) - 1 <= _frame_idx self
      /\ self' = set_playback self false 0 "Play")
  \/ (_is_playing self = true
      /\ _frame_idx self < Z.of_nat (length (_t self)) - 1
      /\ exists val idx,
           np.getitem (_t self) (_frame_idx self) = Ok val
           /\ sample_index (set_slider_time_val self val) val = Ok idx
           /\ self' = set_playback
                        (set_time_marker
                           (set_rendered_idx (set_slider_time_val self val) idx)
                           val)
                        true (_frame_idx self + 10) (_btn_play_label self)).
Proof.
  intros H. destruct (_is_playing self) eqn:Hp.
  - destruct (Z_lt_le_dec (_frame_idx self) (Z.of_nat (length (_t self)) - 1))
      as [Hlt|Hge].
    + right. right. split; [reflexivity|]. split; [exact Hlt|].
      destruct (animate_playing _ _ Hp Hlt H) as (val & idx & Hg & Hs & ->).
      eauto.
    + right. left. split; [reflexivity|]. split; [exact Hge|].
      unfold _animate in H. rewrite Hp in H.
      destruct (Z.ltb_spec (_frame_idx self) (Z.of_nat (length (_t self)) - 1));
        [lia|].
      now injection H.
  - left. split; [reflexivity|].
    unfold _animate in H. rewrite Hp in H. now injection H.
Qed.

Lemma animate_eq (self : PIDResponseGraph) :
  consistent self ->
  _is_playing self = true ->
  0 <= _frame_idx self < Z.of_nat (length (_t self)) - 1 ->
  let val := nth (Z.to_nat (_frame_idx self)) (_t self) F64.zero in
  _animate self
  = (idx <- sample_index self val ;;
     Ok (set_playback
           (set_time_marker
              (set_rendered_idx (set_slider_time_val self val) idx) val)
           true (_frame_idx self + 10) (_btn_play_label self))).
Proof.
  intros Hc Hp Hf val. unfold _animate. rewrite Hp.
  destruct (Z.ltb_spec (_frame_idx self) (Z.of_nat (length (_t self)) - 1));
    [|lia].
  rewrite getitem_in_range by lia. cbn [bind]. fold val.
  unfold slider_time_set_val.
  rewrite on_time_change_eq by exact Hc.
  change (sample_index (set_slider_time_val self val) val)
    with (sample_index self val).
  destruct (sample_index self val) as [idx|e]; [|reflexivity].
  cbn [bind set_time_marker set_rendered_idx set_slider_time_val set_playback
       _is_playing _frame_idx _btn_play_label].
  now rewrite Hp.
Qed.

Lemma animate_raises (self : PIDResponseGraph) (e : exn) :
  consistent self ->
  0 <= _frame_idx self ->
  _animate self = Raise e ->
  e = ValueError \/ e = OverflowError.
Proof.
  intros Hc Hf H.
  destruct (_is_playing self) eqn:Hp.
  - destruct (Z_lt_le_dec (_frame_idx self) (Z.of_nat (length (_t self)) - 1))
      as [Hlt|Hge].
    + rewrite animate_eq in H by (trivial; lia).
      destruct (sample_index self _) as [idx|e'] eqn:Hs; [discriminate|].
      cbn [bind] in H. injection H as <-.
      apply (sample_index_raises self _ e' ltac:(lia) Hs).
    + unfold _animate in H. rewrite Hp in H.
      destruct (Z.ltb_spec (_frame_idx self) (Z.of_nat (length (_t self)) - 1));
        [lia|discriminate].
  - unfold _animate in H. rewrite Hp in H. discriminate.
Qed.

(** X3.  A tick of the timer on an object whose arrays have the same length
    and whose frame index is not negative never fails by indexing (nor
    by a division): the only exceptions it can raise are the ValueError
    and OverflowError of [int] on a NaN or infinite quotient. *)
Theorem animate_never_index_error (self : PIDResponseGraph) :
  consistent self ->
  0 <= _frame_idx self ->
  _animate self <> Raise IndexError
  /\ _animate self <> Raise ZeroDivisionError.
Proof.
  intros Hc Hf.
  split; intros H; destruct (animate_raises self _ Hc Hf H); discriminate.
Qed.

Lemma animate_never_index_error_witness :
  _animate
    (mkGraph [F64.zero; F64.zero; F64.zero] [F64.zero; F64.zero; F64.zero] []
       [F64.zero; F64.zero; F64.zero] [F64.zero; F64.zero; F64.zero]
       F64.one F64.four F64.zero F64.zero true 0 F64.zero F64.zero
       "Pause" None)
  <> Raise IndexError.
Proof.
  apply animate_never_index_error.
  - repeat split; reflexivity.
  - cbn. lia.
Defined.

(** ** What the callbacks leave alone *)

Lemma update_plot_inv
    (self self' : PIDResponseGraph) (kp ki kd : float) :
  _update_plot self kp ki kd = Ok self' ->
  exists s1,
    simulate_pid_response (set_gains self kp ki kd)
      default_duration default_dt = Ok s1
    /\ _on_time_change s1 (_slider_time_val s1) = Ok self'.
Proof.
  unfold _update_plot.
  destruct (simulate_pid_response _ _ _) as [s1|e]; [|discriminate].
  cbn [bind]. destruct (np.getitem (_t s1) (-1)); [|discriminate].
  cbn [bind]. eauto.
Qed.

Lemma simulate_frame (self self' : PIDResponseGraph) (duration dt : float) :
  simulate_pid_response self duration dt = Ok self' ->
  _is_playing self' = _is_playing self
  /\ _frame_idx self' = _frame_idx self
  /\ _slider_time_val self' = _slider_time_val self
  /\ _time_marker self' = _time_marker self
  /\ _btn_play_label self' = _btn_play_label self
  /\ _rendered_idx self' = _rendered_idx self
  /\ _derivatives self' = _derivatives self.
Proof.
  unfold simulate_pid_response.
  destruct (np.arange _ _ _) as [ts|e]; [|discriminate].
  cbn [bind]. injection 1 as <-. cbn. tauto.
Qed.

(** X4.  The play button, a tick of the timer and a move of the time slider
    never modify the simulation data: the trace, the setpoint and the
    gains are the same afterwards, and so is the list of derivatives,
    which nothing ever fills. *)
Theorem playback_keeps_data (self self' : PIDResponseGraph) :
  self' = _toggle_play self
  \/ _animate self = Ok self'
  \/ (exists val, _on_time_change self val = Ok self') ->
  same_data self' self.
Proof.
  intros [->|[H|[val H]]].
  - repeat split.
  - destruct (animate_cases _ _ H)
      as [[_ ->]|[(_ & _ & ->)|(_ & _ & val & idx & _ & _ & ->)]];
      repeat split.
  - destruct (on_time_change_inv _ _ _ H) as (idx & _ & ->). repeat split.
Qed.

Lemma playback_keeps_data_witness :
  same_data
    (_toggle_play (fresh F64.one F64.four F64.zero F64.zero))
    (fresh F64.one F64.four F64.zero F64.zero).
Proof.
  apply playback_keeps_data. left. reflexivity.
Defined.

(** X5.  The label of the play button always names the action the button will
    perform: pressing the button establishes this, and a tick, a move of
    the time slider, a run of the simulation and a change of a gain keep
    it. *)
Theorem label_tracks_state (self : PIDResponseGraph) :
  label_ok (_toggle_play self)
  /\ (label_ok self ->
      (forall self', _animate self = Ok self' -> label_ok self')
      /\ (forall val self', _on_time_change self val = Ok self' -> label_ok self')
      /\ (forall duration dt self',
            simulate_pid_response self duration dt = Ok self' ->
            label_ok self')
      /\ (forall kp ki kd self',
            _update_plot self kp ki kd = Ok self' -> label_ok self')).
Proof.
  unfold label_ok. split.
  - cbn. now destruct (_is_playing self).
  - intros Hl. repeat split.
    + intros self' H.
      destruct (animate_cases _ _ H)
        as [[_ ->]|[(_ & _ & ->)|(Hp & _ & val & idx & _ & _ & ->)]];
        trivial. cbn. now rewrite Hl, Hp.
    + intros val self' H.
      destruct (on_time_change_inv _ _ _ H) as (idx & _ & ->). exact Hl.
    + intros duration dt self' H.
      destruct (simulate_frame _ _ _ _ H) as (-> & _ & _ & _ & -> & _).
      exact Hl.
    + intros kp ki kd self' H.
      destruct (update_plot_inv _ _ _ _ _ H) as (s1 & Hs & Hc).
      destruct (simulate_frame _ _ _ _ Hs) as (Hp & _ & _ & _ & Hb & _).
      destruct (on_time_change_inv _ _ _ Hc) as (idx & _ & ->).
      cbn. rewrite Hb, Hp. exact Hl.
Qed.

Lemma label_tracks_state_witness :
  label_ok (_toggle_play (fresh F64.one F64.four F64.zero F64.zero))
  /\ forall self',
       _animate (_toggle_play (fresh F64.one F64.four F64.zero F64.zero))
       = Ok self' ->
       label_ok self'.
Proof.
  split.
  - exact (proj1 (label_tracks_state _)).
  - exact (proj1 (proj2 (label_tracks_state
                           (_toggle_play
                              (fresh F64.one F64.four F64.zero F64.zero)))
                    (proj1 (label_tracks_state _)))).
Defined.

(** X6.  The frame index stays a non-negative multiple of 10 under every
    callback: if it is one before, it is one after [_toggle_play], after a
    tick of [_animate] (which adds 10 to it or resets it to 0), after
    [_on_time_change], after a re-simulation and after [_update_plot]
    (which do not write it). *)
Theorem frame_idx_invariant (self : PIDResponseGraph) :
  frame_ok self ->
  frame_ok (_toggle_play self)
  /\ (forall self', _animate self = Ok self' -> frame_ok self')
  /\ (forall val self', _on_time_change self val = Ok self' -> frame_ok self')
  /\ (forall duration dt self',
        simulate_pid_response self duration dt = Ok self' -> frame_ok self')
  /\ (forall kp ki kd self',
        _update_plot self kp ki kd = Ok self' -> frame_ok self').
Proof.
  unfold frame_ok. intros [H0 H10]. repeat split; intros.
  - exact H0.
  - exact H10.
  - destruct (animate_cases _ _ H)
      as [[_ ->]|[(_ & _ & ->)|(_ & _ & val & idx & _ & _ & ->)]];
      cbn; lia.
  - destruct (animate_cases _ _ H)
      as [[_ ->]|[(_ & _ & ->)|(_ & _ & val & idx & _ & _ & ->)]];
      cbn; trivial.
    rewrite <- Zplus_mod_idemp_l, H10. reflexivity.
  - destruct (on_time_change_inv _ _ _ H) as (idx & _ & ->). exact H0.
  - destruct (on_time_change_inv _ _ _ H) as (idx & _ & ->). exact H10.
  - destruct (simulate_frame _ _ _ _ H) as (_ & -> & _). exact H0.
  - destruct (simulate_frame _ _ _ _ H) as (_ & -> & _). exact H10.
  - destruct (update_plot_inv _ _ _ _ _ H) as (s1 & Hs & Hc).
    destruct (simulate_frame _ _ _ _ Hs) as (_ & Hf & _).
    destruct (on_time_change_inv _ _ _ Hc) as (idx & _ & ->).
    cbn. rewrite Hf. exact H0.
  - destruct (update_plot_inv _ _ _ _ _ H) as (s1 & Hs & Hc).
    destruct (simulate_frame _ _ _ _ Hs) as (_ & Hf & _).
    destruct (on_time_change_inv _ _ _ Hc) as (idx & _ & ->).
    cbn. rewrite Hf. exact H10.
Qed.

Lemma frame_idx_invariant_witness :
  frame_ok (_toggle_play (fresh F64.one F64.four F64.zero F64.zero)).
Proof.
  refine (proj1 (frame_idx_invariant
                   (fresh F64.one F64.four F64.zero F64.zero) _)).
  split; [cbn; lia|reflexivity].
Defined.

(** ** Playback runs to the end *)

Lemma lookups_ok_at (self : PIDResponseGraph) (f : Z) :
  lookups_ok self = true ->
  0 <= f < Z.of_nat (length (_t self)) - 1 ->
  exists idx,
    sample_index self (nth (Z.to_nat f) (_t self) F64.zero) = Ok idx.
Proof.
  intros Hl Hf. unfold lookups_ok in Hl.
  rewrite forallb_forall in Hl.
  specialize (Hl (Z.to_nat f)).
  destruct (sample_index self (nth (Z.to_nat f) (_t self) F64.zero))
    as [idx|e]; [eauto|].
  exfalso. assert (false = true); [|discriminate].
  apply Hl. apply in_seq. lia.
Qed.

Lemma frames_left_zero (f : Z) (n : nat) :
  frames_left f n = O -> Z.of_nat n - 1 <= f.
Proof.
  unfold frames_left. intros H.
  destruct (Z_lt_le_dec f (Z.of_nat n - 1)) as [Hlt|]; [|assumption].
  exfalso.
  assert (1 <= (Z.of_nat n - 1 - f + 9) / 10)
    by (apply Z.div_le_lower_bound; lia).
  lia.
Qed.

Lemma frames_left_succ (f : Z) (n k : nat) :
  frames_left f n = S k ->
  f < Z.of_nat n - 1 /\ frames_left (f + 10) n = k.
Proof.
  unfold frames_left. intros H.
  assert (Hq : 0 < (Z.of_nat n - 1 - f + 9) / 10) by lia.
  split.
  - destruct (Z_lt_le_dec f (Z.of_nat n - 1)) as [|Hge]; [assumption|].
    exfalso.
    assert ((Z.of_nat n - 1 - f + 9) / 10 <= 0); [|lia].
    apply Z.lt_succ_r, Z.div_lt_upper_bound; lia.
  - replace (Z.of_nat n - 1 - (f + 10) + 9)
      with (Z.of_nat n - 1 - f + 9 + (-1) * 10) by lia.
    rewrite Z.div_add by lia. lia.
Qed.

Lemma tick_playing (self : PIDResponseGraph) :
  consistent self ->
  lookups_ok self = true ->
  _is_playing self = true ->
  0 <= _frame_idx self < Z.of_nat (length (_t self)) - 1 ->
  exists self',
    _animate self = Ok self'
    /\ _is_playing self' = true
    /\ _frame_idx self' = _frame_idx self + 10
    /\ consistent self'
    /\ lookups_ok self' = true
    /\ same_data self' self
    /\ _slider_time_val self'
       = nth (Z.to_nat (_frame_idx self)) (_t self) F64.zero.
Proof.
  intros Hc Hl Hp Hf.
  destruct (lookups_ok_at self _ Hl Hf) as [idx Hidx].
  rewrite (animate_eq self Hc Hp Hf). cbv zeta. rewrite Hidx. cbn [bind].
  eexists. split; [reflexivity|].
  repeat split; try apply Hc. exact Hl.
Qed.

Lemma playback_run (n : nat) :
  forall self : PIDResponseGraph,
    consistent self ->
    lookups_ok self = true ->
    _is_playing self = true ->
    0 <= _frame_idx self ->
    frames_left (_frame_idx self) (length (_t self)) = n ->
    (forall j : nat,
        (j <= n)%nat ->
        exists sj,
          ticks j self = Ok sj
          /\ state_of sj = Playing
          /\ _frame_idx sj = _frame_idx self + 10 * Z.of_nat j)
    /\ exists self',
         ticks (S n) self = Ok self'
         /\ state_of self' = Stopped
         /\ _frame_idx self' = 0
         /\ same_data self' self.
Proof.
  induction n as [|n IH]; intros self Hc Hl Hp Hf Hn.
  - split.
    + intros j Hj. assert (j = O) by lia. subst j.
      exists self. cbn [ticks]. unfold state_of. rewrite Hp.
      split; [reflexivity|]. split; [reflexivity|]. lia.
    + apply frames_left_zero in Hn.
      cbn [ticks]. unfold _animate. rewrite Hp.
      destruct (Z.ltb_spec (_frame_idx self) (Z.of_nat (length (_t self)) - 1));
        [lia|].
      cbn [bind]. eexists. split; [reflexivity|]. repeat split.
  - apply frames_left_succ in Hn. destruct Hn as [Hlt Hn].
    destruct (tick_playing self Hc Hl Hp ltac:(lia))
      as (s1 & Ht & Hp1 & Hf1 & Hc1 & Hl1 & Hd1 & _).
    assert (Et : _t s1 = _t self).
    { destruct Hd1 as (Htr & _). now injection Htr. }
    rewrite <- Et, <- Hf1 in Hn.
    destruct (IH s1 Hc1 Hl1 Hp1 ltac:(lia) Hn) as [Hmid (self' & Hfin & Hs & H0 & Hd)].
    split.
    + intros [|j] Hj.
      * exists self. cbn [ticks]. unfold state_of. rewrite Hp.
        split; [reflexivity|]. split; [reflexivity|]. lia.
      * destruct (Hmid j ltac:(lia)) as (sj & Hsj & Hst & Hfj).
        exists sj. cbn [ticks]. rewrite Ht. cbn [bind].
        split; [exact Hsj|]. split; [exact Hst|]. lia.
    + exists self'. change (ticks (S (S n)) self)
        with (s <- _animate self ;; ticks (S n) s).
      rewrite Ht. cbn [bind]. split; [exact Hfin|].
      split; [exact Hs|]. split; [exact H0|].
      unfold same_data in *.
      destruct Hd as (-> & -> & -> & -> & -> & ->). exact Hd1.
Qed.

(** X7.  Playback always comes to an end.  On an object whose arrays have the
    same length and on whose time axis the lookup of every sample time
    before the last succeeds, playing from a frame index f >= 0: each of
    the next n ticks completes and advances the frame index by 10, where
    n = ceil((N - 1 - f) / 10) is the number of frames left, and the tick
    after them stops the playback, resets the frame index to 0 and leaves
    the simulation data as it was. *)
Theorem playback_terminates (self : PIDResponseGraph) :
  consistent self ->
  lookups_ok self = true ->
  _is_playing self = true ->
  0 <= _frame_idx self ->
  let n := frames_left (_frame_idx self) (length (_t self)) in
  (forall j : nat,
      (j <= n)%nat ->
      exists sj,
        ticks j self = Ok sj
        /\ state_of sj = Playing
        /\ _frame_idx sj = _frame_idx self + 10 * Z.of_nat j)
  /\ exists self',
       ticks (S n) self = Ok self'
       /\ state_of self' = Stopped
       /\ _frame_idx self' = 0
       /\ same_data self' self.
Proof.
  intros Hc Hl Hp Hf n. now apply playback_run.
Qed.

Lemma playback_terminates_witness :
  exists self0 self',
    simulate_pid_response (fresh F64.one F64.four F64.zero F64.zero)
      (F64.of_Z 25) F64.one = Ok self0
    /\ ticks 4 (_toggle_play self0) = Ok self'
    /\ state_of self' = Stopped
    /\ _frame_idx self' = 0.
Proof.
  destruct (simulate_pid_response (fresh F64.one F64.four F64.zero F64.zero)
              (F64.of_Z 25) F64.one) as [self0|e] eqn:E0;
    [|vm_compute in E0; discriminate E0].
  assert (Hc : consistent (_toggle_play self0))
    by exact (simulate_lengths _ _ _ _ E0).
  assert (Hl : lookups_ok (_toggle_play self0) = true).
  { vm_compute in E0. injection E0 as <-. vm_compute. reflexivity. }
  assert (Hp : _is_playing (_toggle_play self0) = true).
  { vm_compute in E0. injection E0 as <-. reflexivity. }
  assert (Hf : _frame_idx (_toggle_play self0) = 0).
  { vm_compute in E0. injection E0 as <-. reflexivity. }
  assert (Hn : length (_t (_toggle_play self0)) = 25%nat).
  { cbn [_toggle_play set_playback _t].
    rewrite (simulate_count _ _ _ _ E0). vm_compute. reflexivity. }
  destruct (playback_terminates (_toggle_play self0) Hc Hl Hp
              ltac:(rewrite Hf; lia))
    as [_ (self' & Ht & Hs & H0 & _)].
  rewrite Hf, Hn in Ht.
  change (frames_left 0 25) with 3%nat in Ht.
  exists self0, self'. auto.
Defined.

(** ** Changing a gain *)

Lemma assemble_finite_of_upper (s : bool) (m3 e3 L k : Z) :
  0 <= m3 -> 0 <= L -> 0 <= e3 + L -> 0 <= k < 2 ^ 53 ->
  m3 * 2 ^ (e3 + L) <= k * 2 ^ L ->
  F64.is_finite (assemble s m3 e3) = true.
Proof.
  intros Hm HL HeL Hk Hle.
  destruct m3 as [|p|p]; [reflexivity| |lia].
  unfold assemble.
  destruct (Z.leb_spec e3 (F64.emax - F64.prec)) as [|Hbig]; [reflexivity|].
  exfalso. change (F64.emax - F64.prec) with 971 in Hbig.
  assert (HpL : 0 < 2 ^ L) by now apply pow2_pos.
  assert (E : 2 ^ (e3 + L) = 2 ^ 53 * 2 ^ (e3 - 53) * 2 ^ L).
  { rewrite <- !Z.pow_add_r by lia. f_equal. lia. }
  assert (Hp : 0 < 2 ^ (e3 - 53)) by (apply pow2_pos; lia).
  rewrite E in Hle.
  assert (H53 : 0 < 2 ^ 53) by (apply pow2_pos; lia).
  assert (Hkk : k * 2 ^ L < 2 ^ 53 * 2 ^ L) by (clear - Hk HpL; nia).
  assert (Hge : 2 ^ 53 * 2 ^ L <= Zpos p * (2 ^ 53 * 2 ^ (e3 - 53) * 2 ^ L)).
  { assert (1 <= Zpos p * 2 ^ (e3 - 53)) by (clear - Hp; nia).
    assert (0 < 2 ^ 53 * 2 ^ L) by (clear - H53 HpL; nia).
    clear - H H0. nia. }
  lia.
Qed.

(** A quotient below an integer bound is finite: if [val <= b] and
    [b <= k * dt] then [val / dt] is a finite float. *)
Lemma div_finite_of_bound
    (m mb mt : positive) (e eb et k : Z) :
  F64.valid (S754_finite false m e) = true ->
  F64.valid (S754_finite false mb eb) = true ->
  F64.valid (S754_finite false mt et) = true ->
  F64.leb (S754_finite false m e) (S754_finite false mb eb) = true ->
  0 <= k < 2 ^ 53 ->
  Zpos mb * 2 ^ (eb + 1074) <= k * Zpos mt * 2 ^ (et + 1074) ->
  F64.is_finite (S754_finite false m e / S754_finite false mt et)%f64 = true.
Proof.
  intros Vv Vb Vt Hle Hk Hb.
  pose proof (leb_scaled _ _ _ _ Vv Vb Hle) as Hord.
  apply valid_finite_inv in Vv, Vt.
  destruct Vv as [Cv Bv], Vt as [Ct Bt]. rewrite fexp_eq in Cv, Ct.
  destruct (div_finite_bounds false false m mt e et 2200)
    as (m3 & e3 & Hm3 & He3 & Eres & _ & Hupp); try lia.
  rewrite Eres. cbn [xorb].
  apply (assemble_finite_of_upper false m3 e3 2200 k); try lia.
  apply Hupp; [lia|].
  assert (Es : 2 ^ (e - et + 2200)
               = 2 ^ (e + 1074) * 2 ^ (2200 - et - 1074)).
  { rewrite <- Z.pow_add_r by lia. f_equal. lia. }
  assert (Et : 2 ^ 2200 = 2 ^ (et + 1074) * 2 ^ (2200 - et - 1074)).
  { rewrite <- Z.pow_add_r by lia. f_equal. lia. }
  assert (Hp : 0 < 2 ^ (2200 - et - 1074)) by (apply pow2_pos; lia).
  rewrite Es. rewrite Et at 1.
  assert (Htr : Zpos m * 2 ^ (e + 1074) <= k * Zpos mt * 2 ^ (et + 1074))
    by lia.
  clear - Htr Hp. nia.
Qed.

Lemma default_times :
  exists ts,
    np.arange F64.zero default_duration default_dt = Ok ts
    /\ length ts = 1000%nat.
Proof.
  destruct (np.arange F64.zero default_duration default_dt) as [ts|e] eqn:E;
    [|vm_compute in E; discriminate E].
  exists ts. split; [reflexivity|].
  pose proof (arange_length _ _ _ E) as L. rewrite L.
  vm_compute. reflexivity.
Qed.

Lemma default_run (self : PIDResponseGraph) :
  exists self',
    simulate_pid_response self default_duration default_dt = Ok self'
    /\ length (_t self') = 1000%nat.
Proof.
  destruct default_times as (ts & Ha & L).
  destruct (simulate_of_arange self _ _ _ Ha) as (self' & H & Ht).
  exists self'. split; [exact H|]. now rewrite Ht.
Qed.

Lemma slider_quotient_finite (val : float) :
  F64.valid val = true ->
  F64.leb F64.zero val = true ->
  F64.leb val default_last = true ->
  F64.is_finite (val / default_dt)%f64 = true.
Proof.
  intros Vv H0 Hl.
  destruct val as [s|[]| |[] m e]; try discriminate; [reflexivity|].
  apply (div_finite_of_bound m 5623870034678907 5764607523034235
           e (-49) (-59) 1000); trivial.
  - split; [lia|]. apply Z.ltb_lt. reflexivity.
  - apply Z.leb_le. vm_compute. reflexivity.
Qed.

(** X8.  Changing a gain never fails while the time slider is within its
    range: for every three gain values, [_update_plot] stores them, leaves
    the trace of a fresh default run with those gains (1000 samples),
    renders the sample at index clamp(floor(val / 0.01), 0, 999) for the
    current slider value val, moves the time marker there, and leaves
    the playback state and the slider as they were. *)
Theorem update_plot_succeeds
    (self : PIDResponseGraph) (kp ki kd : float) :
  F64.valid (_slider_time_val self) = true ->
  F64.leb F64.zero (_slider_time_val self) = true ->
  F64.leb (_slider_time_val self) default_last = true ->
  exists self',
    _update_plot self kp ki kd = Ok self'
    /\ _Kp self' = kp /\ _Ki self' = ki /\ _Kd self' = kd
    /\ _setpoint self' = _setpoint self
    /\ length (_t self') = 1000%nat
    /\ consistent self'
    /\ map_result trace_of
         (simulate_pid_response (fresh (_setpoint self) kp ki kd)
            default_duration default_dt)
       = Ok (trace_of self')
    /\ _rendered_idx self'
       = Some (clamp (F64.Zfloor (_slider_time_val self / default_dt)%f64)
                 0 999)
    /\ _time_marker self' = _slider_time_val self
    /\ _slider_time_val self' = _slider_time_val self
    /\ _is_playing self' = _is_playing self
    /\ _frame_idx self' = _frame_idx self.
Proof.
  intros Vv H0 Hl.
  destruct (default_run (set_gains self kp ki kd)) as (s1 & Hs & Hn).
  pose proof (simulate_lengths _ _ _ _ Hs) as Hc.
  destruct (simulate_frame _ _ _ _ Hs) as (Hp & Hf & Hv & _).
  destruct (simulate_inv _ _ _ _ Hs) as (n & _ & _ & _ & _ & _ & Es & Ep & Ei & Ed).
  cbn [set_gains _slider_time_val _is_playing _frame_idx
       _setpoint _Kp _Ki _Kd] in Hp, Hf, Hv, Es, Ep, Ei, Ed.
  pose proof (slider_quotient_finite _ Vv H0 Hl) as Hfin.
  pose proof (sample_index_of_run _ _ _ _ (_slider_time_val self) Hs
                ltac:(rewrite Hn; lia) Hfin) as Hidx.
  rewrite Hn in Hidx. change (Z.of_nat 1000 - 1) with 999 in Hidx.
  unfold _update_plot. cbv zeta. rewrite Hs. cbn [bind].
  rewrite getitem_in_range_neg by (rewrite Hn; lia). cbn [bind].
  rewrite (on_time_change_eq s1 _ Hc), Hv, Hidx. cbn [bind].
  eexists. split; [reflexivity|].
  cbn [set_time_marker set_rendered_idx _Kp _Ki _Kd _setpoint _t
       _rendered_idx _time_marker _slider_time_val _is_playing _frame_idx].
  repeat split; trivial; try apply Hc.
  rewrite (simulate_trace_ext (fresh (_setpoint self) kp ki kd)
             (set_gains self kp ki kd)) by reflexivity.
  now rewrite Hs.
Qed.

Lemma update_plot_succeeds_witness :
  exists self',
    _update_plot (fresh F64.one F64.four F64.zero F64.zero)
      F64.two F64.one F64.zero = Ok self'
    /\ _Kp self' = F64.two
    /\ length (_t self') = 1000%nat
    /\ _rendered_idx self' = Some 0.
Proof.
  destruct (update_plot_succeeds (fresh F64.one F64.four F64.zero F64.zero)
              F64.two F64.one F64.zero eq_refl eq_refl eq_refl)
    as (self' & H & Hk & _ & _ & _ & Hn & _ & _ & Hr & _).
  exists self'. split; [exact H|]. split; [exact Hk|]. split; [exact Hn|].
  exact Hr.
Defined.

(** ** The first two steps *)

Lemma neg_zero_add_l (a : float) : (S754_zero true + a)%f64 = a.
Proof. destruct a as [[]|[]| |[] m e]; reflexivity. Qed.

Lemma locals_at_1 (self : PIDResponseGraph) (s : bool) (m : positive) (e : Z) :
  let dt := S754_finite s m e in
  let sp := _setpoint self in
  let u0 :=
    (_Kp self * sp + _Ki self * (F64.zero + sp * dt) + _Kd self * (sp / dt))%f64 in
  locals_at self dt 1
  = Locals.mk F64.zero (F64.zero + u0 * dt)%f64 (F64.zero + sp * dt)%f64 sp
      [F64.zero] [sp] [(F64.zero + sp * dt)%f64].
Proof.
  intros dt sp u0. unfold locals_at. cbn [for_range].
  unfold loop_body, control, initial_locals.
  cbn [Locals.x Locals.v Locals.integral Locals.previous_error
       Locals.values Locals.errors Locals.integrals app].
  rewrite !sub_zero_r. fold sp. fold dt. fold u0.
  assert (Ex : (F64.zero + F64.zero * dt)%f64 = F64.zero)
    by (subst dt; now destruct s).
  assert (Edv : (- F64.zero + u0)%f64 = u0) by apply neg_zero_add_l.
  now rewrite Ex, Edv.
Qed.

(** X9.  Whatever the gains and the setpoint, the first recorded position is
    0 and the first two recorded errors are both the setpoint: the first
    control output u0 = Kp*sp + Ki*(sp*dt) + Kd*(sp/dt) only reaches the
    velocity in step 0 and the position in step 1, so that
    value[1] = (u0 * dt) * dt, and integral[1] = sp*dt + sp*dt. *)
Theorem first_two_steps
    (self self' : PIDResponseGraph) (duration dt : float) :
  F64.is_finite dt = true ->
  simulate_pid_response self duration dt = Ok self' ->
  (2 <= length (_t self'))%nat ->
  let sp := _setpoint self in
  let u0 :=
    (_Kp self * sp + _Ki self * (F64.zero + sp * dt) + _Kd self * (sp / dt))%f64 in
  nth_error (_values self') 0 = Some F64.zero
  /\ nth_error (_errors self') 0 = Some sp
  /\ nth_error (_errors self') 1 = Some sp
  /\ nth_error (_integrals self') 0 = Some (F64.zero + sp * dt)%f64
  /\ nth_error (_integrals self') 1
     = Some (F64.zero + sp * dt + sp * dt)%f64
  /\ nth_error (_values self') 1
     = Some (F64.zero + (F64.zero + u0 * dt) * dt)%f64.
Proof.
  intros Hfin H HN sp u0.
  pose proof (simulate_step_nonzero _ _ _ _ H) as Hz.
  destruct dt as [s|s| |s m e]; try discriminate.
  destruct (recorded_at _ _ _ _ 0%nat H ltac:(lia)) as (Hv0 & He0 & Hi0).
  destruct (recorded_at _ _ _ _ 1%nat H ltac:(lia)) as (Hv1 & He1 & Hi1).
  assert (E2 : locals_at self (S754_finite s m e) 2
               = loop_body self (S754_finite s m e)
                   (locals_at self (S754_finite s m e) 1))
    by (unfold locals_at; apply for_range_succ).
  rewrite E2 in Hv1, Hi1.
  rewrite locals_at_1 in Hv0, Hi0, He1, Hv1, Hi1.
  cbv zeta in Hv0, Hi0, He1, Hv1, Hi1. fold sp in Hi0, He1, Hv1, Hi1.
  fold u0 in Hv1.
  cbn [loop_body Locals.x Locals.v Locals.integral] in Hv0, Hi0, He1, Hv1, Hi1.
  rewrite sub_zero_r in He1, Hi1.
  fold sp in Hi1.
  change (locals_at self (S754_finite s m e) 0) with initial_locals in He0.
  cbn [initial_locals Locals.x] in He0. rewrite sub_zero_r in He0.
  repeat split; assumption.
Qed.

Lemma first_two_steps_witness :
  exists self',
    simulate_pid_response (fresh F64.one F64.four F64.one F64.two)
      F64.two F64.one = Ok self'
    /\ nth_error (_values self') 0 = Some F64.zero
    /\ nth_error (_errors self') 1 = Some F64.one.
Proof.
  eexists. split; [reflexivity|].
  pose proof (first_two_steps (fresh F64.one F64.four F64.one F64.two) _
                F64.two F64.one eq_refl eq_refl) as H.
  cbn [length _t] in H. specialize (H (le_n 2)).
  destruct H as (Hv & _ & He & _).
  split; [exact Hv|exact He].
Defined.

(** ** A zero setpoint *)

Section AtRest.

Variable self : PIDResponseGraph.
Variable dt : float.

Hypothesis Hsp : F64.is_zero (_setpoint self) = true.
Hypothesis HKp : F64.is_finite (_Kp self) = true.
Hypothesis HKi : F64.is_finite (_Ki self) = true.
Hypothesis HKd : F64.is_finite (_Kd self) = true.
Hypothesis Hdt : F64.is_finite dt = true.
Hypothesis Hdt0 : F64.is_zero dt = false.

Lemma at_rest_invariant (j : nat) :
  F64.is_zero (Locals.x (locals_at self dt j)) = true
  /\ F64.is_zero (Locals.v (locals_at self dt j)) = true
  /\ F64.is_zero (Locals.integral (locals_at self dt j)) = true
  /\ F64.is_zero (Locals.previous_error (locals_at self dt j)) = true.
Proof.
  induction j as [|j IH]; [cbn; auto|].
  destruct IH as (Hx & Hv & Hi & Hp).
  unfold locals_at in *. rewrite for_range_succ.
  set (s := for_range self dt j initial_locals) in *.
  assert (He : F64.is_zero (_setpoint self - Locals.x s)%f64 = true)
    by now apply sub_zero_zero.
  assert (Hi' : F64.is_zero
                  (Locals.integral s + (_setpoint self - Locals.x s) * dt)%f64
                = true).
  { apply add_zero_zero; [assumption|]. now apply mul_zero_l. }
  assert (Hd : F64.is_zero
                 ((_setpoint self - Locals.x s - Locals.previous_error s)
                  / dt)%f64 = true).
  { apply div_zero_l; trivial. now apply sub_zero_zero. }
  assert (Hu : F64.is_zero
                 (control self (_setpoint self - Locals.x s)
                    (Locals.integral s + (_setpoint self - Locals.x s) * dt)
                    ((_setpoint self - Locals.x s - Locals.previous_error s)
                     / dt))%f64 = true).
  { unfold control. repeat apply add_zero_zero; now apply mul_zero_r. }
  cbn [loop_body Locals.x Locals.v Locals.integral Locals.previous_error].
  split; [|split; [|split]]; trivial.
  - apply add_zero_zero; [assumption|]. now apply mul_zero_l.
  - apply add_zero_zero; [assumption|]. apply mul_zero_l; [|assumption].
    apply add_zero_zero; [|assumption].
    apply sub_zero_zero; [now apply opp_zero|].
    now apply mul_zero_r.
Qed.

End AtRest.

(** X10.  With a zero setpoint, finite gains and a finite step the plant is in
    equilibrium: every recorded value, error and integral is zero. *)
Theorem zero_setpoint_rest
    (self self' : PIDResponseGraph) (duration dt : float) (i : nat) :
  F64.is_zero (_setpoint self) = true ->
  F64.is_finite (_Kp self) = true ->
  F64.is_finite (_Ki self) = true ->
  F64.is_finite (_Kd self) = true ->
  F64.is_finite dt = true ->
  simulate_pid_response self duration dt = Ok self' ->
  (i < length (_t self'))%nat ->
  exists val err acc,
    nth_error (_values self') i = Some val
    /\ nth_error (_errors self') i = Some err
    /\ nth_error (_integrals self') i = Some acc
    /\ F64.is_zero val = true
    /\ F64.is_zero err = true
    /\ F64.is_zero acc = true.
Proof.
  intros Hsp HKp HKi HKd Hdt H Hi.
  pose proof (simulate_step_nonzero _ _ _ _ H) as Hz.
  destruct (recorded_at _ _ _ _ _ H Hi) as (Hv & He & Hint).
  destruct (at_rest_invariant self dt Hsp HKp HKi HKd Hdt Hz (S i))
    as (Hx' & _ & Hi' & _).
  destruct (at_rest_invariant self dt Hsp HKp HKi HKd Hdt Hz i)
    as (Hx & _).
  do 3 eexists. split; [exact Hv|]. split; [exact He|]. split; [exact Hint|].
  split; [exact Hx'|]. split; [|exact Hi'].
  now apply sub_zero_zero.
Qed.

Lemma zero_setpoint_rest_witness :
  exists self' val,
    simulate_pid_response (fresh F64.zero F64.four F64.one F64.two)
      F64.four F64.one = Ok self'
    /\ nth_error (_values self') 3 = Some val
    /\ F64.is_zero val = true.
Proof.
  eexists.
  pose proof (zero_setpoint_rest (fresh F64.zero F64.four F64.one F64.two) _
                F64.four F64.one 3 eq_refl eq_refl eq_refl eq_refl eq_refl
                eq_refl) as H.
  cbn [length _t] in H. specialize (H (le_n 4)).
  destruct H as (val & err & acc & Hv & _ & _ & Hz & _).
  exists val. split; [reflexivity|]. split; [exact Hv|exact Hz].
Defined.

(** ** How the recorded sequences relate *)

(** X11.  The error sequence of a run is the setpoint minus the value sequence
    shifted by one step: error[0] is the setpoint itself and
    error[i+1] = setpoint - value[i], bit for bit. *)
Theorem errors_from_values
    (self self' : PIDResponseGraph) (duration dt : float) :
  simulate_pid_response self duration dt = Ok self' ->
  ((0 < length (_t self'))%nat ->
   nth_error (_errors self') 0 = Some (_setpoint self))
  /\ (forall i : nat,
        (S i < length (_t self'))%nat ->
        exists v,
          nth_error (_values self') i = Some v
          /\ nth_error (_errors self') (S i) = Some (_setpoint self - v)%f64).
Proof.
  intros H. split.
  - intros H0. destruct (recorded_at _ _ _ _ 0%nat H H0) as (_ & He & _).
    rewrite He. change (locals_at self dt 0) with initial_locals.
    cbn [initial_locals Locals.x]. now rewrite sub_zero_r.
  - intros i Hi.
    destruct (recorded_at _ _ _ _ i H ltac:(lia)) as (Hv & _ & _).
    destruct (recorded_at _ _ _ _ (S i) H Hi) as (_ & He & _).
    eexists. split; [exact Hv|exact He].
Qed.

Lemma errors_from_values_witness :
  exists self',
    simulate_pid_response (fresh F64.one F64.four F64.one F64.two)
      F64.two F64.one = Ok self'
    /\ nth_error (_errors self') 0 = Some F64.one.
Proof.
  eexists. split; [reflexivity|].
  pose proof (proj1 (errors_from_values
                       (fresh F64.one F64.four F64.one F64.two) _
                       F64.two F64.one eq_refl)) as H.
  cbn [length _t] in H. exact (H (Nat.lt_0_succ 1)).
Defined.

(** ** A negative step *)

Lemma negative_inv (a : float) :
  F64.ltb a F64.zero = true ->
  a = S754_infinity true \/ exists m e, a = S754_finite true m e.
Proof.
  destruct a as [s|[]| |[] m e]; try discriminate; eauto.
Qed.

Lemma nonnegative_inv (a : float) :
  F64.leb F64.zero a = true ->
  (exists s, a = S754_zero s) \/ a = S754_infinity false
  \/ exists m e, a = S754_finite false m e.
Proof.
  destruct a as [s|[]| |[] m e]; try discriminate; eauto.
Qed.

(** X12.  A negative step with a duration that is zero or positive (their
    quotient fitting the index type) is not an error either: the run
    returns four empty sequences. *)
Theorem negative_step_empty
    (self : PIDResponseGraph) (duration dt : float) :
  F64.ltb dt F64.zero = true ->
  F64.leb F64.zero duration = true ->
  count_fits duration dt = true ->
  map_result trace_of (simulate_pid_response self duration dt)
  = Ok (mkTrace [] [] [] []).
Proof.
  intros Hdt Hdur Hf.
  assert (Hz : F64.is_zero dt = false)
    by (destruct (negative_inv _ Hdt) as [->|(m & e & ->)]; reflexivity).
  destruct (count_fits_inv _ _ Hf) as (Hfin & Hlo & _).
  assert (Ha : np.arange F64.zero duration dt = Ok []).
  { apply arange_empty; trivial.
    - split; [assumption|].
      destruct (negative_inv _ Hdt) as [->|(m & e & ->)];
        destruct (nonnegative_inv _ Hdur) as [[s ->]|[->|(m' & e' & ->)]];
        try discriminate; try (apply Z.leb_le; reflexivity).
      destruct (div_finite_cases false true m' m e' e) as [E|[E|(m1 & e1 & E)]];
        cbn [xorb] in E; rewrite E in Hfin |- *; try discriminate Hfin;
        [apply Z.leb_le; reflexivity | apply Zceil_negative].
    - destruct (negative_inv _ Hdt) as [->|(m & e & ->)];
        destruct (nonnegative_inv _ Hdur) as [[s ->]|[->|(m' & e' & ->)]];
        try discriminate; auto.
      destruct (div_finite_cases false true m' m e' e) as [E|[E|(m1 & e1 & E)]];
        cbn [xorb] in E; rewrite E; try discriminate; auto. }
  unfold simulate_pid_response, bind. now rewrite Ha.
Qed.

Lemma negative_step_empty_witness :
  map_result trace_of
    (simulate_pid_response (fresh F64.one F64.four F64.zero F64.zero)
       F64.ten (- F64.hundredth)%f64)
  = Ok (mkTrace [] [] [] []).
Proof.
  exact (negative_step_empty _ F64.ten (- F64.hundredth)%f64
           eq_refl eq_refl eq_refl).
Defined.

(** ** Pause and resume *)

(** X13.  Pressing the play button twice restores the object exactly, provided
    the label named the button's action before: a pause keeps the frame
    index, so that playback resumes where it stopped. *)
Theorem toggle_play_twice (self : PIDResponseGraph) :
  label_ok self ->
  _toggle_play (_toggle_play self) = self
  /\ _frame_idx (_toggle_play self) = _frame_idx self.
Proof.
  unfold label_ok. intros Hl. split; [|reflexivity].
  destruct self as [er it de va ts sp kp ki kd pl fr sl tm lb ri].
  cbn in *. subst lb. now destruct pl.
Qed.

Lemma toggle_play_twice_witness :
  _toggle_play (_toggle_play (fresh F64.one F64.four F64.zero F64.zero))
  = fresh F64.one F64.four F64.zero F64.zero.
Proof.
  exact (proj1 (toggle_play_twice
                  (fresh F64.one F64.four F64.zero F64.zero) eq_refl)).
Defined.
